(** * Dumper-7-ml: member comparators, model obfuscation and the
      dependency / layout / naming core

    Shallow embedding of
    - [Dumper/Generator/Public/PredefinedMembers.h] (member comparators),
    - [Dumper/Generator/Public/MLEncryption.h] and the inference header
      (XOR obfuscation, model verification, [EncryptedModelRuntime]),
    - the dependency walk, the layout normalizer and the collision resolver
      described in the design document (their translation units are not part
      of the available sources).

    Machine integers are [Z] with the wrap-around written out, byte vectors
    are [list Z], [std::vector] sizes and indices are [nat]. *)

From stdpp Require Import base relations list strings pretty sorting.
From Stdlib Require Import ZArith Lia Bool.

#[local] Open Scope Z_scope.

(** ** Machine integers *)

Definition uint8_wrap (z : Z) : Z := z mod 2 ^ 8.
Definition uint32_wrap (z : Z) : Z := z mod 2 ^ 32.

Definition is_uint8 (z : Z) : Prop := 0 <= z < 2 ^ 8.
Definition is_bytes (l : list Z) : Prop := Forall is_uint8 l.

(** ** MLEncryption.h *)

Module ML.

(** [std::array<uint8_t, 32>::size()] and [std::array<uint8_t, 16>::size()]. *)
Definition KEY_SIZE : nat := 32.
Definition IV_SIZE : nat := 16.

Record EncryptionKey := {
  Key : list Z;
  IV : list Z
}.

(** [EncryptionKey()] fills both arrays with zero. *)
Definition EncryptionKey_new : EncryptionKey :=
  {| Key := replicate KEY_SIZE 0; IV := replicate IV_SIZE 0 |}.

Record EncryptedModelData := {
  EncryptedData : list Z;
  OriginalSize : Z;
  EncryptedSize : Z;
  ModelVersion : Z;
  ModelName : string
}.

(** [EncryptedModelData()]. *)
Definition EncryptedModelData_new : EncryptedModelData :=
  {| EncryptedData := []; OriginalSize := 0; EncryptedSize := 0;
     ModelVersion := 1; ModelName := "" |}.

(** [v[i]] for an index the loops keep in range. *)
Definition at_index (v : list Z) (i : nat) : Z := default 0 (v !! i).

(** The value stored by one iteration of either loop:
    [Src[i] ^ Key.Key[i % Key.Key.size()] ^ Key.IV[i % Key.IV.size()]],
    converted to [uint8_t] by the assignment. *)
Definition xor_byte (K : EncryptionKey) (Src : list Z) (i : nat) : Z :=
  let KeyByte := at_index (Key K) (i mod KEY_SIZE) in
  let IVByte := at_index (IV K) (i mod IV_SIZE) in
  uint8_wrap (Z.lxor (Z.lxor (at_index Src i) KeyByte) IVByte).

(** [for (size_t i = 0; i < n; ++i) Result[i] = Src[i] ^ KeyByte ^ IVByte;] *)
Definition xor_loop (K : EncryptionKey) (Src : list Z) (n : nat)
    (Result : list Z) : list Z :=
  foldl (fun R i => <[i := xor_byte K Src i]> R) Result (seq 0 n).

Definition Encrypt (Data : list Z) (K : EncryptionKey) : EncryptedModelData :=
  let Result_OriginalSize := uint32_wrap (Z.of_nat (length Data)) in
  let Result_EncryptedData := replicate (length Data) 0 in
  let Result_EncryptedData :=
    xor_loop K Data (length Data) Result_EncryptedData in
  {| EncryptedData := Result_EncryptedData;
     OriginalSize := Result_OriginalSize;
     EncryptedSize := uint32_wrap (Z.of_nat (length Result_EncryptedData));
     ModelVersion := 1;
     ModelName := "" |}.

(** The loop condition [i < EncryptedData.size() && i < Result.size()] holds
    for [i] below the smaller of the two sizes. *)
Definition Decrypt (E : EncryptedModelData) (K : EncryptionKey) : list Z :=
  let Result := replicate (Z.to_nat (OriginalSize E)) 0 in
  xor_loop K (EncryptedData E)
    (Nat.min (length (EncryptedData E)) (length Result)) Result.

(** [Security::VerifyModel]. *)
Definition VerifyModel (Model : EncryptedModelData) : bool :=
  (0 <? OriginalSize Model) &&
  (0 <? EncryptedSize Model) &&
  (EncryptedSize Model =? Z.of_nat (length (EncryptedData Model))).

(** *** The runtime (inference header) *)

Record EncryptedModelRuntime := {
  EncryptedModel : EncryptedModelData;
  DecryptedModel : list Z;
  RuntimeKey : EncryptionKey;
  bIsLoaded : bool
}.

(** [EncryptedModelRuntime()]. *)
Definition EncryptedModelRuntime_new : EncryptedModelRuntime :=
  {| EncryptedModel := EncryptedModelData_new;
     DecryptedModel := [];
     RuntimeKey := EncryptionKey_new;
     bIsLoaded := false |}.

(** [LoadModel] returns its result together with the object's new state. *)
Definition LoadModel (this : EncryptedModelRuntime)
    (Model : EncryptedModelData) (DecryptionKey : EncryptionKey)
    : bool * EncryptedModelRuntime :=
  if negb (VerifyModel Model) then (false, this)
  else
    let this1 :=
      {| EncryptedModel := Model;
         DecryptedModel := DecryptedModel this;
         RuntimeKey := DecryptionKey;
         bIsLoaded := bIsLoaded this |} in
    let this2 :=
      {| EncryptedModel := EncryptedModel this1;
         DecryptedModel := Decrypt (EncryptedModel this1) (RuntimeKey this1);
         RuntimeKey := RuntimeKey this1;
         bIsLoaded := bIsLoaded this1 |} in
    if (Nat.eqb (length (DecryptedModel this2)) 0)
       || negb (Z.of_nat (length (DecryptedModel this2))
                =? OriginalSize (EncryptedModel this2))
    then (false, this2)
    else
      (true,
       {| EncryptedModel := EncryptedModel this2;
          DecryptedModel := DecryptedModel this2;
          RuntimeKey := RuntimeKey this2;
          bIsLoaded := true |}).

Definition IsLoaded (this : EncryptedModelRuntime) : bool := bIsLoaded this.

(** [Unload]. *)
Definition Unload (this : EncryptedModelRuntime) : EncryptedModelRuntime :=
  {| EncryptedModel := EncryptedModel this;
     DecryptedModel := [];
     RuntimeKey := RuntimeKey this;
     bIsLoaded := false |}.

(** The key of [ModelEncryption::GenerateKey]. *)
Definition GenerateKey : EncryptionKey :=
  {| Key := map (fun i => uint8_wrap (Z.lxor (Z.of_nat i * 7 + 13) 171))
                (seq 0 KEY_SIZE);
     IV := map (fun i => uint8_wrap (Z.lxor (Z.of_nat i * 11 + 17) 205))
               (seq 0 IV_SIZE) |}.

(** A buffer of [2^32] zero bytes (4 GiB), one more than [uint32_t] counts. *)
Definition four_gib : list Z := replicate (Z.to_nat (2 ^ 32)) 0.

(** A small well-formed container: five bytes under the generated key. *)
Definition sample_model : EncryptedModelData :=
  Encrypt [1; 2; 3; 4; 5] GenerateKey.

End ML.

(** ** PredefinedMembers.h *)

Module Members.

Record PredefinedMember := {
  Comment : string;
  Type_ : string;
  Name : string;
  Offset : Z;
  Size : Z;
  ArrayDim : Z;
  Alignment : Z;
  bIsStatic : bool;
  bIsZeroSizeMember : bool;
  bIsBitField : bool;
  BitIndex : Z;
  BitCount : Z;
  DefaultValue : string
}.

(** Modelled from the spec: the reflected property handle [UEProperty]
    (declared in Unreal/UnrealObjects.h, which is not among the sources),
    reduced to the three observations [CompareUnrealProperties] makes:
    [IsA(EClassCastFlags::BoolProperty)], [GetOffset()] and, for bool
    properties, [Cast<UEBoolProperty>().GetBitIndex()]. *)
Record UEProperty := {
  IsA_BoolProperty : bool;
  GetOffset : Z;
  GetBitIndex : Z
}.

(** [operator>] on [bool] operands (integral promotion). *)
Definition bool_gt (a b : bool) : bool := Z.b2z b <? Z.b2z a.

(** [operator<] on [std::string]: lexicographic on the character codes. *)
Definition string_lt (a b : string) : bool := String.ltb a b.

Definition CompareUnrealProperties (Left Right : UEProperty) : bool :=
  if IsA_BoolProperty Left && IsA_BoolProperty Right
     && (GetOffset Left =? GetOffset Right)
  then GetBitIndex Left <? GetBitIndex Right
  else GetOffset Left <? GetOffset Right.

Definition ComparePredefinedMembers (Left Right : PredefinedMember) : bool :=
  if bIsStatic Left && bIsStatic Right then string_lt (Name Left) (Name Right)
  else if bIsStatic Left || bIsStatic Right
  then bool_gt (bIsStatic Left) (bIsStatic Right)
  else Offset Left <? Offset Right.

(** Two elements are equivalent for [std::sort] when neither is less. *)
Definition incomparable {A} (cmp : A -> A -> bool) (a b : A) : Prop :=
  cmp a b = false /\ cmp b a = false.

(** The ordering the sorting rule describes for names. *)
Inductive lex_lt : string -> string -> Prop :=
| lex_lt_nil c s : lex_lt EmptyString (String c s)
| lex_lt_head c1 c2 s1 s2 :
    (Ascii.N_of_ascii c1 < Ascii.N_of_ascii c2)%N ->
    lex_lt (String c1 s1) (String c2 s2)
| lex_lt_tail c s1 s2 : lex_lt s1 s2 -> lex_lt (String c s1) (String c s2).

(** A predefined member with only the fields the comparator reads set. *)
Definition mk_member (name : string) (off : Z) (static bitfield : bool)
    (bit : Z) : PredefinedMember :=
  {| Comment := ""; Type_ := "uint8"; Name := name; Offset := off; Size := 1;
     ArrayDim := 1; Alignment := 1; bIsStatic := static;
     bIsZeroSizeMember := false; bIsBitField := bitfield; BitIndex := bit;
     BitCount := 1; DefaultValue := "" |}.

(** The sorting rule for predefined members read with its bit-field clause:
    statics by name and first, instance members by offset, bit-fields at one
    offset by bit index. *)
Definition sorted_before_stated (L R : PredefinedMember) : Prop :=
  (bIsStatic L = true /\ bIsStatic R = true /\ lex_lt (Name L) (Name R)) \/
  (bIsStatic L = true /\ bIsStatic R = false) \/
  (bIsStatic L = false /\ bIsStatic R = false /\
   (Offset L < Offset R \/
    (Offset L = Offset R /\ bIsBitField L = true /\ bIsBitField R = true /\
     BitIndex L < BitIndex R))).

(** The same rule without the bit-field clause. *)
Definition sorted_before (L R : PredefinedMember) : Prop :=
  (bIsStatic L = true /\ bIsStatic R = true /\ lex_lt (Name L) (Name R)) \/
  (bIsStatic L = true /\ bIsStatic R = false) \/
  (bIsStatic L = false /\ bIsStatic R = false /\ Offset L < Offset R).

(** The rule for reflected properties: ascending offset, bool (bit-field)
    properties at one offset by ascending bit index. *)
Definition property_before (L R : UEProperty) : Prop :=
  GetOffset L < GetOffset R \/
  (GetOffset L = GetOffset R /\ IsA_BoolProperty L = true /\
   IsA_BoolProperty R = true /\ GetBitIndex L < GetBitIndex R).

(** Two predefined bit-field members packed into the byte at offset 8. *)
Definition flag_bit0 : PredefinedMember := mk_member "bFlagA" 8 false true 0.
Definition flag_bit1 : PredefinedMember := mk_member "bFlagB" 8 false true 1.

(** Three reflected properties at offset 0: two bits of a bit-field and a
    property that is not a bool. *)
Definition bool_bit0 : UEProperty :=
  {| IsA_BoolProperty := true; GetOffset := 0; GetBitIndex := 0 |}.
Definition other_at_0 : UEProperty :=
  {| IsA_BoolProperty := false; GetOffset := 0; GetBitIndex := 0 |}.
Definition bool_bit1 : UEProperty :=
  {| IsA_BoolProperty := true; GetOffset := 0; GetBitIndex := 1 |}.

End Members.

(** ** The dependency / layout / naming core

    The translation units of the core (dependency manager, member manager,
    collision manager) are not part of the available sources; the modules
    below follow the design document. *)

(** Modelled from the spec: the scopes within which identifiers must be
    unique: the members of a type, the functions of a type, the type names
    of a package. *)
Inductive Scope :=
| MemberScope (node : nat)
| FunctionScope (node : nat)
| TypeScope (package : nat).

#[global] Instance Scope_eq_dec : EqDecision Scope.
Proof. solve_decision. Defined.

(** Modelled from the spec: the kinds of dependency edge. *)
Inductive EdgeKind := Inherits | MemberValue | MemberPointer.

#[global] Instance EdgeKind_eq_dec : EqDecision EdgeKind.
Proof. solve_decision. Defined.

(** Modelled from the spec: the error taxonomy of the core's error-handling
    design. Every error is fatal and carries the names the document asks
    for: both nodes and the kind of the cyclic edge, the node and the member
    of a layout fault, the scope and the proposed name, the referring node
    and the missing one. *)
Inductive Error :=
| UnresolvableCycle (from_node to_node : nat) (kind : EdgeKind)
| LayoutInconsistency (node : nat) (member : string)
| NameSpaceExhausted (scope : Scope) (proposed : string)
| DanglingReference (from_node to_node : nat).

Inductive result (A : Type) :=
| Ok (a : A)
| Fatal (e : Error).
Arguments Ok {A} a.
Arguments Fatal {A} e.

#[global] Instance result_ret : MRet result := fun A a => Ok a.
#[global] Instance result_bind : MBind result :=
  fun A B f r => match r with Ok a => f a | Fatal e => Fatal e end.

Module Graph.
#[local] Open Scope nat_scope.

(** Modelled from the spec: a dependency edge [(from-node, to-node, kind)] of
    the data model, together with the declared storage of the member it comes
    from ([by_pointer] holds for a pointer or reference member; an [Inherits]
    edge has no member and is never by pointer). *)
Record Edge := {
  e_from : nat;
  e_to : nat;
  e_kind : EdgeKind;
  e_by_pointer : bool
}.

#[global] Instance Edge_eq_dec : EqDecision Edge.
Proof. solve_decision. Defined.

(** Only [Inherits] and [MemberValue] edges force the dependency to be
    emitted first; [MemberPointer] edges are recorded but do not gate. *)
Definition gates (e : Edge) : bool :=
  match e_kind e with MemberPointer => false | _ => true end.

(** An edge that closes a cycle can be reclassified exactly when it is a
    [MemberValue] edge whose member is declared as a pointer/reference. *)
Definition breakable (e : Edge) : bool :=
  match e_kind e with MemberValue => e_by_pointer e | _ => false end.

(** The error reported for an edge that closes a cycle and cannot be
    reclassified: it names both nodes and the edge's kind. *)
Definition cycle_fault (e : Edge) : Error :=
  UnresolvableCycle (e_from e) (e_to e) (e_kind e).

(** Modelled from the spec: the state of one walk. The two per-node markers
    ("currently on this walk's stack", "already emitted this run") are kept
    as the lists of nodes carrying them; [emitted] is in emission order and
    [forward_declared] collects the edges reclassified to [MemberPointer],
    whose members are to be forward-declared. *)
Record Walk := {
  on_stack : list nat;
  emitted : list nat;
  forward_declared : list Edge
}.

Definition empty_walk : Walk :=
  {| on_stack := []; emitted := []; forward_declared := [] |}.

Definition push (n : nat) (w : Walk) : Walk :=
  {| on_stack := n :: on_stack w; emitted := emitted w;
     forward_declared := forward_declared w |}.

Definition reclassify (e : Edge) (w : Walk) : Walk :=
  {| on_stack := on_stack w; emitted := emitted w;
     forward_declared := forward_declared w ++ [e] |}.

(** [on_visit(n)]: the node leaves the stack and is appended to the order. *)
Definition emit (n : nat) (w : Walk) : Walk :=
  {| on_stack := tail (on_stack w); emitted := emitted w ++ [n];
     forward_declared := forward_declared w |}.

(** The kind of an edge after the walk. *)
Definition final_kind (w : Walk) (e : Edge) : EdgeKind :=
  if bool_decide (e ∈ forward_declared w) then MemberPointer else e_kind e.

(** Ascending order on edges: by source index, then target index; edges
    between the same two nodes are ordered by kind and storage so that the
    order is total. *)
Definition kind_rank (k : EdgeKind) : nat :=
  match k with Inherits => 0 | MemberValue => 1 | MemberPointer => 2 end.
Definition storage_rank (b : bool) : nat := if b then 1 else 0.

Definition edge_le (a b : Edge) : Prop :=
  e_from a < e_from b \/
  (e_from a = e_from b /\
   (e_to a < e_to b \/
    (e_to a = e_to b /\
     (kind_rank (e_kind a) < kind_rank (e_kind b) \/
      (kind_rank (e_kind a) = kind_rank (e_kind b) /\
       storage_rank (e_by_pointer a) <= storage_rank (e_by_pointer b)))))).

#[global] Instance edge_le_dec : RelDecision edge_le.
Proof. intros a b. unfold edge_le. apply _. Defined.

Definition sort_nodes (nodes : list nat) : list nat := merge_sort le nodes.
Definition sort_edges (edges : list Edge) : list Edge :=
  merge_sort edge_le edges.

Section walk.
(** The edge set, already in ascending order. *)
Variable g : list Edge.

Definition deps (n : nat) : list Edge :=
  filter (fun e => e_from e = n) g.

(** Modelled from the spec: the loop over the dependencies of the node on
    top of the stack. A dependency already emitted is skipped; one that is
    on the stack closes a cycle, and the closing edge is reclassified if
    and only if its member is a pointer/reference, otherwise the walk stops
    with [UnresolvableCycle]; any other dependency is visited first. *)
Fixpoint visit_deps (visit : Walk -> nat -> option (result Walk))
    (es : list Edge) (w : Walk) : option (result Walk) :=
  match es with
  | [] => Some (Ok w)
  | e :: es' =>
      if negb (gates e) then visit_deps visit es' w
      else if bool_decide (e_to e ∈ emitted w) then visit_deps visit es' w
      else if bool_decide (e_to e ∈ on_stack w) then
        if breakable e then visit_deps visit es' (reclassify e w)
        else Some (Fatal (cycle_fault e))
      else
        match visit w (e_to e) with
        | Some (Ok w') => visit_deps visit es' w'
        | r => r
        end
  end.

(** Modelled from the spec: the depth-first, post-order visit of one node.
    The recursion depth is bounded by [fuel]; [None] means the bound was
    too small. *)
Fixpoint visit (fuel : nat) (w : Walk) (n : nat) : option (result Walk) :=
  match fuel with
  | O => None
  | S fuel' =>
      if bool_decide (n ∈ emitted w) then Some (Ok w)
      else
        match visit_deps (visit fuel') (deps n) (push n w) with
        | Some (Ok w') => Some (Ok (emit n w'))
        | r => r
        end
  end.

Fixpoint visit_roots (fuel : nat) (roots : list nat) (w : Walk)
    : option (result Walk) :=
  match roots with
  | [] => Some (Ok w)
  | n :: roots' =>
      match visit fuel w n with
      | Some (Ok w') => visit_roots fuel roots' w'
      | r => r
      end
  end.
End walk.

(** A reference out of the supplied node set. *)
Definition dangling (nodes : list nat) (e : Edge) : bool :=
  bool_decide (e_from e ∈ nodes) && negb (bool_decide (e_to e ∈ nodes)).

Definition find_dangling (nodes : list nat) (edges : list Edge)
    : option Edge :=
  snd <$> list_find (fun e => dangling nodes e = true) edges.

(** Modelled from the spec: [visit_all(node_set, on_visit)]. The node set and
    the edge set arrive in the iteration order of their containers and are
    put in ascending index order before anything is visited. The stack can
    never hold more nodes than the node set has, which bounds the depth. *)
Definition visit_all (nodes : list nat) (edges : list Edge)
    : option (result Walk) :=
  let ns := sort_nodes nodes in
  let es := sort_edges edges in
  match find_dangling ns es with
  | Some e => Some (Fatal (DanglingReference (e_from e) (e_to e)))
  | None => visit_roots es (S (length ns)) ns empty_walk
  end.

(** The position of a node in the emission order. *)
Definition emission_index (order : list nat) (n : nat) : option nat :=
  fst <$> list_find (fun x => x = n) order.

(** [a] is emitted before [b]. *)
Definition emitted_before (order : list nat) (a b : nat) : Prop :=
  exists ia ib, emission_index order a = Some ia /\
                emission_index order b = Some ib /\ ia < ib.

(** A by-value member dependency: [a] stores a [b] by value. *)
Definition value_dep (edges : list Edge) (a b : nat) : Prop :=
  exists e, e ∈ edges /\ e_from e = a /\ e_to e = b /\
            e_kind e = MemberValue /\ e_by_pointer e = false.

(** A dependency the walk follows. *)
Definition gating_dep (edges : list Edge) (a b : nat) : Prop :=
  exists e, e ∈ edges /\ e_from e = a /\ e_to e = b /\ gates e = true.

(** [a] occurs in the order strictly before an occurrence of [b]. *)
Definition before (l : list nat) (a b : nat) : Prop :=
  exists l1 l2, l = l1 ++ b :: l2 /\ a ∈ l1.

(** What holds of the walk state between any two steps. *)
Record walk_inv (g : list Edge) (nodes : list nat) (w : Walk) : Prop := {
  inv_emitted_nodup : NoDup (emitted w);
  inv_stack_nodup : NoDup (on_stack w);
  inv_disjoint : forall n, n ∈ on_stack w -> n ∉ emitted w;
  inv_stack_nodes : forall n, n ∈ on_stack w -> n ∈ nodes;
  inv_emitted_nodes : forall n, n ∈ emitted w -> n ∈ nodes;
  inv_order : forall e, e ∈ g -> gates e = true -> e_from e ∈ emitted w ->
    e ∈ forward_declared w \/ before (emitted w) (e_to e) (e_from e);
  inv_forward : forall e, e ∈ forward_declared w ->
    e ∈ g /\ breakable e = true /\ rtc (gating_dep g) (e_to e) (e_from e)
}.

(** The only error a walk over a closed graph reports: a cycle closed by an
    edge that cannot be reclassified. *)
Definition cycle_error (g : list Edge) (err : Error) : Prop :=
  exists e, err = cycle_fault e /\ e ∈ g /\
            gates e = true /\ breakable e = false /\
            rtc (gating_dep g) (e_to e) (e_from e).

Section walk_contract.
Variable g : list Edge.
Variable nodes : list nat.

(** What a visit of [n] from state [w] guarantees. *)
Definition visit_post (w : Walk) (n : nat) (r : option (result Walk))
    : Prop :=
  match r with
  | None => False
  | Some (Fatal err) => cycle_error g err
  | Some (Ok w') =>
      walk_inv g nodes w' /\ on_stack w' = on_stack w /\
      (exists l, emitted w' = emitted w ++ l) /\
      (exists f, forward_declared w' = forward_declared w ++ f) /\
      n ∈ emitted w'
  end.

Definition visit_pre (fuel : nat) (w : Walk) (n : nat) : Prop :=
  walk_inv g nodes w /\ n ∈ nodes /\ (n ∉ on_stack w) /\
  (forall m, m ∈ on_stack w -> rtc (gating_dep g) m n) /\
  length nodes <= fuel + length (on_stack w).

Definition deps_post (es : list Edge) (w : Walk)
    (r : option (result Walk)) : Prop :=
  match r with
  | None => False
  | Some (Fatal err) => cycle_error g err
  | Some (Ok w') =>
      walk_inv g nodes w' /\ on_stack w' = on_stack w /\
      (exists l, emitted w' = emitted w ++ l) /\
      (exists f, forward_declared w' = forward_declared w ++ f) /\
      forall e, e ∈ es -> gates e = true ->
        e ∈ forward_declared w' \/ e_to e ∈ emitted w'
  end.

(** What the walk over all roots guarantees. *)
Definition roots_post (roots : list nat) (w : Walk)
    (r : option (result Walk)) : Prop :=
  match r with
  | None => False
  | Some (Fatal err) => cycle_error g err
  | Some (Ok w') =>
      walk_inv g nodes w' /\ on_stack w' = [] /\
      (forall n, n ∈ roots -> n ∈ emitted w') /\
      (forall n, n ∈ emitted w -> n ∈ emitted w')
  end.
End walk_contract.

(** What [visit_all] returns: it never runs out of depth, and its result is
    either an order satisfying the walk invariant, a dangling reference of
    the input, or a cycle closed by an edge that cannot be reclassified. *)
Definition visit_all_post (nodes : list nat) (edges : list Edge)
    (r : option (result Walk)) : Prop :=
  match r with
  | None => False
  | Some (Ok w) =>
      find_dangling (sort_nodes nodes) (sort_edges edges)
      = None /\
      walk_inv (sort_edges edges) (sort_nodes nodes) w /\
      on_stack w = [] /\
      forall n, n ∈ nodes -> n ∈ emitted w
  | Some (Fatal err) =>
      (exists e, err = DanglingReference (e_from e) (e_to e) /\
                 e ∈ edges /\ e_from e ∈ nodes /\
                 e_to e ∉ nodes) \/
      (find_dangling (sort_nodes nodes) (sort_edges edges)
       = None /\
       cycle_error (sort_edges edges) err)
  end.

(** *** Scenarios: X is node 0, Y is node 1 *)

Definition by_value (a b : nat) : Edge :=
  {| e_from := a; e_to := b; e_kind := MemberValue; e_by_pointer := false |}.
Definition by_pointer (a b : nat) : Edge :=
  {| e_from := a; e_to := b; e_kind := MemberValue; e_by_pointer := true |}.
Definition inherits (a b : nat) : Edge :=
  {| e_from := a; e_to := b; e_kind := Inherits; e_by_pointer := false |}.

(** Scenario A on nodes: C = 2 has no dependencies, B = 1 depends on C and
    A = 0 on B. *)
Definition scenario_A : list Edge := [by_value 0 1; by_value 1 2].
(** Scenario B: X stores a Y by value and Y stores an X by value. *)
Definition scenario_B : list Edge := [by_value 0 1; by_value 1 0].
(** Scenario C: X stores a Y by value and Y stores a pointer to X. *)
Definition scenario_C : list Edge := [by_value 0 1; by_pointer 1 0].

(** The walks the scenarios end in. *)
Definition walk_A : Walk :=
  {| on_stack := []; emitted := [2; 1; 0]; forward_declared := [] |}.


End Graph.

Module Layout.
#[local] Open Scope nat_scope.

(** Modelled from the spec: a member of the data model (name handle, type
    reference, byte offset, byte size, array extent, alignment, static flag,
    optional bit-field descriptor [(bit index, bit width)]). The type
    reference is [Some] node index or [None] for a primitive. *)
Record Member := {
  m_name : string;
  m_type : option nat;
  m_offset : nat;
  m_size : nat;
  m_array : nat;
  m_align : nat;
  m_static : bool;
  m_bitfield : option (nat * nat)
}.

(** Modelled from the spec: a node of the data model, with the fields the
    layout normalizer and the naming step read. [n_super] is the optional
    super-node reference. *)
Record Node := {
  n_index : nat;
  n_package : nat;
  n_name : string;
  n_size : nat;
  n_super : option nat;
  n_members : list Member
}.

(** One element of a normalized layout: a member, a synthesized padding
    member, or the backing storage unit of the bit-fields sharing an
    offset. *)
Inductive Unit :=
| Field (m : Member)
| Padding (offset size : nat)
| BitFields (offset size : nat) (bits : list Member).

Definition u_offset (u : Unit) : nat :=
  match u with
  | Field m => m_offset m
  | Padding off _ => off
  | BitFields off _ _ => off
  end.

Definition u_size (u : Unit) : nat :=
  match u with
  | Field m => m_size m
  | Padding _ sz => sz
  | BitFields _ sz _ => sz
  end.

Definition u_end (u : Unit) : nat := u_offset u + u_size u.

(** Padding is named from the offset it starts at. *)
Definition padding_name (off : nat) : string := "Pad_" +:+ pretty off.

Definition u_name (u : Unit) : string :=
  match u with
  | Field m => m_name m
  | Padding off _ => padding_name off
  | BitFields off _ bits =>
      match bits with m :: _ => m_name m | [] => padding_name off end
  end.



Definition bit_index (m : Member) : nat :=
  match m_bitfield m with Some (i, _) => i | None => 0 end.

Definition bit_end (m : Member) : nat :=
  match m_bitfield m with Some (i, w) => i + w | None => 0 end.

(** Step 2: static members by name, the others by ascending offset and, at
    one offset, by ascending bit index. *)
Definition name_le (a b : Member) : Prop :=
  String.leb (m_name a) (m_name b) = true.

Definition offset_le (a b : Member) : Prop :=
  m_offset a < m_offset b \/
  (m_offset a = m_offset b /\ bit_index a <= bit_index b).

#[global] Instance name_le_dec : RelDecision name_le.
Proof. intros a b. unfold name_le. apply _. Defined.
#[global] Instance offset_le_dec : RelDecision offset_le.
Proof. intros a b. unfold offset_le. apply _. Defined.

Definition static_members (ms : list Member) : list Member :=
  merge_sort name_le (filter (fun m => m_static m = true) ms).

Definition instance_members (ms : list Member) : list Member :=
  merge_sort offset_le (filter (fun m => m_static m = false) ms).

(** Bit-fields: consecutive bit-field members sharing an offset form one
    group. *)
Inductive Group :=
| Single (m : Member)
| Bits (offset : nat) (ms : list Member).

Definition group_step (m : Member) (gs : list Group) : list Group :=
  match m_bitfield m with
  | None => Single m :: gs
  | Some _ =>
      match gs with
      | Bits off ms :: gs' =>
          if off =? m_offset m then Bits off (m :: ms) :: gs'
          else Bits (m_offset m) [m] :: gs
      | _ => Bits (m_offset m) [m] :: gs
      end
  end.

Definition groups (ms : list Member) : list Group := foldr group_step [] ms.


(** The highest [bit index + bit width] of a group, and the smallest
    primitive (1, 2, 4 or 8 bytes) holding that many bits. *)
Definition bits_needed (ms : list Member) : nat :=
  foldr (fun m acc => Nat.max (bit_end m) acc) 0 ms.

Definition backing_size (bits : nat) : option nat :=
  if bits <=? 8 then Some 1
  else if bits <=? 16 then Some 2
  else if bits <=? 32 then Some 4
  else if bits <=? 64 then Some 8
  else None.

Definition unit_of_group (node : nat) (gr : Group) : result Unit :=
  match gr with
  | Single m => Ok (Field m)
  | Bits off ms =>
      match backing_size (bits_needed ms) with
      | Some sz => Ok (BitFields off sz ms)
      | None =>
          Fatal (LayoutInconsistency node
                   (match ms with m :: _ => m_name m | [] => "" end))
      end
  end.

Fixpoint units_of_groups (node : nat) (gs : list Group)
    : result (list Unit) :=
  match gs with
  | [] => Ok []
  | gr :: gs' =>
      u ← unit_of_group node gr;
      us ← units_of_groups node gs';
      Ok (u :: us)
  end.

(** Steps 3: walk the units from the cursor; a unit that starts after the
    cursor gets a padding member spanning exactly the gap in front of it, a
    unit that starts before the cursor overlaps what precedes it. Returns
    the sequence and the final cursor. *)
Fixpoint fill (node : nat) (cursor : nat) (us : list Unit)
    : result (list Unit * nat) :=
  match us with
  | [] => Ok ([], cursor)
  | u :: us' =>
      if u_offset u <? cursor
      then Fatal (LayoutInconsistency node (u_name u))
      else
        '(rest, c) ← fill node (u_end u) us';
        Ok ((if cursor <? u_offset u
             then [Padding cursor (u_offset u - cursor)] else [])
            ++ u :: rest, c)
  end.

(** Step 4: the trailing padding member. *)
Definition trailing (cursor size : nat) : list Unit :=
  if cursor <? size then [Padding cursor (size - cursor)] else [].

Definition extent_sum (us : list Unit) : nat := sum_list_with u_size us.

(** Modelled from the spec: step 5 of the layout normalizer. No unit may
    reach beyond the declared size, and the extents must add up to the
    declared size exactly. For a node with a super type the
    cursor of step 3 starts at the super type's size: the bytes in front of
    it hold the inherited members, and their extent, [start], is counted
    with the extents of the sequence. *)
Definition validate (node start size : nat) (us : list Unit)
    : result (list Unit) :=
  match list_find (fun u => size < u_end u) us with
  | Some (_, u) => Fatal (LayoutInconsistency node (u_name u))
  | None =>
      if start + extent_sum us =? size then Ok us
      else Fatal (LayoutInconsistency node "")
  end.

Record Normalized := {
  statics : list Member;
  layout : list Unit
}.

(** Steps 1 and 2 and the bit-field rule: the instance members in offset
    order, bit-fields sharing an offset grouped into their backing unit. *)
Definition node_units (node : Node) : result (list Unit) :=
  units_of_groups (n_index node)
    (groups (instance_members (n_members node))).

(** Modelled from the spec: [normalize(node)], steps 1 to 5 of the layout
    normalizer. [start] is where the cursor starts: [0], or the size of the
    super type if the node has a super. *)
Definition normalize (start : nat) (node : Node) : result Normalized :=
  let idx := n_index node in
  units ← node_units node;
  '(filled, cursor) ← fill idx start units;
  us ← validate idx start (n_size node)
         (filled ++ trailing cursor (n_size node));
  Ok {| statics := static_members (n_members node); layout := us |}.





(** Where the cursor starts: at 0, or at the size of the super type. *)
Definition cursor_start (super_size : option nat) : nat :=
  match super_size with Some s => s | None => 0 end.

(** Scenario D: declared size 16, 4-byte members at offsets 0 and 12. *)
Definition plain_member (name : string) (off size : nat) : Member :=
  {| m_name := name; m_type := None; m_offset := off; m_size := size;
     m_array := 1; m_align := 4; m_static := false; m_bitfield := None |}.

Definition scenario_D : Node :=
  {| n_index := 7; n_package := 0; n_name := "FScenarioD"; n_size := 16;
     n_super := None;
     n_members := [plain_member "Tail" 12 4; plain_member "Head" 0 4] |}.

Definition scenario_D_layout : list Unit :=
  [Field (plain_member "Head" 0 4); Padding 4 8;
   Field (plain_member "Tail" 12 4)].

(** A base node of size 8 and a node derived from it: declared size 24,
    with one 4-byte member of its own at offset 12. *)
Definition scenario_base : Node :=
  {| n_index := 8; n_package := 0; n_name := "FBase"; n_size := 8;
     n_super := None;
     n_members := [plain_member "Id" 0 8] |}.

Definition scenario_derived : Node :=
  {| n_index := 9; n_package := 0; n_name := "FDerived"; n_size := 24;
     n_super := Some 8;
     n_members := [plain_member "Extra" 12 4] |}.


End Layout.

Module Names.
#[local] Open Scope nat_scope.

(** Modelled from the spec: a request [(scope, proposed_name,
    first_seen_order)]; [r_entity] identifies the logical entity asking. *)
Record Request := {
  r_scope : Scope;
  r_proposed : string;
  r_entity : nat
}.

#[global] Instance Request_eq_dec : EqDecision Request.
Proof. solve_decision. Defined.

(** Modelled from the spec: the resolver keeps, per scope, the names already
    issued, and remembers what each request was answered. Both are kept in
    first-seen order. *)
Record Resolver := {
  issued : list (Scope * string);
  resolved : list (Request * string)
}.

Definition empty_resolver : Resolver := {| issued := []; resolved := [] |}.

Definition record_name (st : Resolver) (rq : Request) (final : string)
    : Resolver :=
  {| issued := issued st ++ [(r_scope rq, final)];
     resolved := resolved st ++ [(rq, final)] |}.

Definition lookup_resolved (st : Resolver) (rq : Request) : option string :=
  snd <$> (snd <$> list_find (fun p => p.1 = rq) (resolved st)).

(** The proposed name followed by a numeric suffix. *)
Definition candidate (name : string) (i : nat) : string :=
  name +:+ "_" +:+ pretty i.

Section resolver.
(** The reserved words of a scope and the bound of the suffix search are
    left configurable. *)
Variable reserved : Scope -> list string.
Variable suffix_bound : nat.

(** A name is taken in a scope when it was issued there or is reserved. *)
Definition taken (st : Resolver) (sc : Scope) (name : string) : bool :=
  bool_decide ((sc, name) ∈ issued st) || bool_decide (name ∈ reserved sc).

(** The first suffix, counting up from [i], whose candidate is free. *)
Fixpoint first_free (st : Resolver) (sc : Scope) (name : string)
    (fuel i : nat) : option string :=
  match fuel with
  | O => None
  | S fuel' =>
      if taken st sc (candidate name i)
      then first_free st sc name fuel' (S i)
      else Some (candidate name i)
  end.

(** Modelled from the spec: [resolve(scope, proposed_name)]. A request
    answered before gets the same answer; a free name is issued unchanged;
    a taken name gets the first free numeric suffix, and an exhausted suffix
    space is fatal. *)
Definition resolve (st : Resolver) (rq : Request)
    : result (string * Resolver) :=
  match lookup_resolved st rq with
  | Some final => Ok (final, st)
  | None =>
      if taken st (r_scope rq) (r_proposed rq) then
        match first_free st (r_scope rq) (r_proposed rq) suffix_bound 0 with
        | Some final => Ok (final, record_name st rq final)
        | None => Fatal (NameSpaceExhausted (r_scope rq) (r_proposed rq))
        end
      else Ok (r_proposed rq, record_name st rq (r_proposed rq))
  end.

(** A stream of requests, answered in order. *)
Fixpoint resolve_all (st : Resolver) (rqs : list Request)
    : result (list string * Resolver) :=
  match rqs with
  | [] => Ok ([], st)
  | rq :: rqs' =>
      '(final, st1) ← resolve st rq;
      '(finals, st2) ← resolve_all st1 rqs';
      Ok (final :: finals, st2)
  end.
End resolver.


(** Host-language keywords used as the reserved words of every scope. *)
Definition host_keywords (sc : Scope) : list string :=
  ["class"; "struct"; "union"; "enum"; "int"; "float"; "template";
   "namespace"; "operator"; "default"].

(** Scenario E: two members of one struct both propose "Class". *)
Definition scenario_E : list Request :=
  [ {| r_scope := MemberScope 3; r_proposed := "Class"; r_entity := 0 |};
    {| r_scope := MemberScope 3; r_proposed := "Class"; r_entity := 1 |} ].

Definition scenario_E_resolver : Resolver :=
  {| issued := [(MemberScope 3, "Class"); (MemberScope 3, "Class_0")];
     resolved :=
       [ ({| r_scope := MemberScope 3; r_proposed := "Class";
             r_entity := 0 |}, "Class");
         ({| r_scope := MemberScope 3; r_proposed := "Class";
             r_entity := 1 |}, "Class_0") ] |}.

End Names.

Module Pipeline.
#[local] Open Scope nat_scope.

(** One emission unit: a node with its final identifier, its static members
    and its normalized layout, each with its final identifier. *)
Record EmittedNode := {
  em_index : nat;
  em_name : string;
  em_statics : list (string * Layout.Member);
  em_layout : list (string * Layout.Unit)
}.

(** What the core hands to the emitter: the global emission order and, for
    every broken cycle, the edge whose member is forward-declared. *)
Record Output := {
  out_order : list EmittedNode;
  out_forward : list Graph.Edge
}.

(** The node with a given stable index, in a container in any order. *)
Definition find_node (nodes : list Layout.Node) (i : nat)
    : option Layout.Node :=
  snd <$> list_find (fun n => Layout.n_index n = i) nodes.

(** The identifiers a node asks for in its member scope, in emission
    order. *)
Definition member_requests (i : nat) (names : list string)
    : list Names.Request :=
  imap (fun k name =>
          {| Names.r_scope := MemberScope i; Names.r_proposed := name;
             Names.r_entity := k |}) names.

Section pipeline.
Variable reserved : Scope -> list string.
Variable suffix_bound : nat.
Variable lookup : nat -> option Layout.Node.

(** The cursor start of a node: the size of its super type, if any. *)
Definition super_start (node : Layout.Node) : result nat :=
  match Layout.n_super node with
  | None => Ok (Layout.cursor_start None)
  | Some s =>
      match lookup s with
      | Some sup => Ok (Layout.cursor_start (Some (Layout.n_size sup)))
      | None => Fatal (DanglingReference (Layout.n_index node) s)
      end
  end.

(** The scheduler's [on_visit]: normalize the node's layout, then resolve
    its type name in its package and its member names in its own scope. *)
Definition emit_node (st : Names.Resolver) (i : nat)
    : result (EmittedNode * Names.Resolver) :=
  match lookup i with
  | None => Fatal (DanglingReference i i)
  | Some node =>
      start ← super_start node;
      nl ← Layout.normalize start node;
      '(tname, st1) ←
        Names.resolve reserved suffix_bound st
          {| Names.r_scope := TypeScope (Layout.n_package node);
             Names.r_proposed := Layout.n_name node;
             Names.r_entity := i |};
      '(names, st2) ←
        Names.resolve_all reserved suffix_bound st1
          (member_requests i
             ((Layout.m_name <$> Layout.statics nl)
              ++ (Layout.u_name <$> Layout.layout nl)));
      Ok ({| em_index := i; em_name := tname;
             em_statics :=
               zip (take (length (Layout.statics nl)) names)
                   (Layout.statics nl);
             em_layout :=
               zip (drop (length (Layout.statics nl)) names)
                   (Layout.layout nl) |}, st2)
  end.

Fixpoint emit_all (st : Names.Resolver) (order : list nat)
    : result (list EmittedNode) :=
  match order with
  | [] => Ok []
  | i :: order' =>
      '(e, st1) ← emit_node st i;
      es ← emit_all st1 order';
      Ok (e :: es)
  end.
End pipeline.

(** Modelled from the spec: the whole core on one input node set. The nodes
    and the edges arrive in the iteration order of their containers; the
    walk fixes the emission order, then every node is laid out and named in
    that order. *)
Definition pipeline (reserved : Scope -> list string) (suffix_bound : nat)
    (nodes : list Layout.Node) (edges : list Graph.Edge)
    : option (result Output) :=
  match Graph.visit_all (Layout.n_index <$> nodes) edges with
  | None => None
  | Some (Fatal e) => Some (Fatal e)
  | Some (Ok w) =>
      Some (out ← emit_all reserved suffix_bound (find_node nodes)
                     Names.empty_resolver (Graph.emitted w);
            Ok {| out_order := out;
                  out_forward := Graph.forward_declared w |})
  end.

(** Two nodes: X = 0 stores a Y by value, Y = 1 holds a pointer to X. *)
Definition node_X : Layout.Node :=
  {| Layout.n_index := 0; Layout.n_package := 0; Layout.n_name := "FX";
     Layout.n_size := 8; Layout.n_super := None;
     Layout.n_members := [Layout.plain_member "Inner" 0 8] |}.
Definition node_Y : Layout.Node :=
  {| Layout.n_index := 1; Layout.n_package := 0; Layout.n_name := "FY";
     Layout.n_size := 8; Layout.n_super := None;
     Layout.n_members := [Layout.plain_member "Owner" 0 8] |}.

End Pipeline.

(** ** The function comparators of PredefinedMembers.h *)

Module Functions.

Record PredefinedFunction := {
  CustomComment : string;
  CustomTemplateText : string;
  ReturnType : string;
  NameWithParams : string;
  NameWithParamsWithoutDefaults : string;
  Body : string;
  bIsStatic : bool;
  bIsConst : bool;
  bIsBodyInline : bool
}.

(** Modelled from the spec: the reflected function handle [UEFunction]
    (declared in Unreal/UnrealObjects.h, which is not among the sources),
    reduced to the three observations [CompareUnrealFunctions] makes:
    [HasFlags(EFunctionFlags::Static)], [HasFlags(EFunctionFlags::Const)]
    and [GetIndex()]. *)
Record UEFunction := {
  HasFlags_Static : bool;
  HasFlags_Const : bool;
  GetIndex : Z
}.

(** [operator<] and [operator!=] on [bool] operands. *)
Definition bool_lt (a b : bool) : bool := Z.b2z a <? Z.b2z b.
Definition bool_ne (a b : bool) : bool := negb (Z.b2z a =? Z.b2z b).

Definition CompareUnrealFunctions (Left Right : UEFunction) : bool :=
  let bIsLeftStatic := HasFlags_Static Left in
  let bIsRightStatic := HasFlags_Static Right in
  let bIsLeftConst := HasFlags_Const Left in
  let bIsRightConst := HasFlags_Const Right in
  if bool_ne bIsLeftStatic bIsRightStatic
  then Members.bool_gt bIsLeftStatic bIsRightStatic
  else if bool_ne bIsLeftConst bIsRightConst
  then bool_lt bIsLeftConst bIsRightConst
  else GetIndex Left <? GetIndex Right.

Definition ComparePredefinedFunctions (Left Right : PredefinedFunction)
    : bool :=
  if bool_ne (bIsBodyInline Left) (bIsBodyInline Right)
  then bool_lt (bIsBodyInline Left) (bIsBodyInline Right)
  else if bool_ne (bIsStatic Left) (bIsStatic Right)
  then Members.bool_gt (bIsStatic Left) (bIsStatic Right)
  else if bool_ne (bIsConst Left) (bIsConst Right)
  then bool_lt (bIsConst Left) (bIsConst Right)
  else Members.string_lt (NameWithParams Left) (NameWithParams Right).

(** What [std::sort] requires of its comparator: irreflexive, transitive,
    and with a transitive equivalence ("neither is less"). *)
Definition strict_weak_order {A} (cmp : A -> A -> bool) : Prop :=
  (forall a, cmp a a = false) /\
  (forall a b c, cmp a b = true -> cmp b c = true -> cmp a c = true) /\
  (forall a b c,
     Members.incomparable cmp a b -> Members.incomparable cmp b c ->
     Members.incomparable cmp a c).

(** The four groups of the comment above the function comparators, in order:
    static non-inline, non-inline, static inline, inline. *)
Definition function_group (f : PredefinedFunction) : Z :=
  2 * Z.b2z (bIsBodyInline f) + (1 - Z.b2z (bIsStatic f)).

(** The sort key of each comparator's flags. *)
Definition predefined_rank (f : PredefinedFunction) : Z :=
  4 * Z.b2z (bIsBodyInline f) + 2 * (1 - Z.b2z (bIsStatic f))
  + Z.b2z (bIsConst f).

Definition unreal_rank (f : UEFunction) : Z :=
  2 * (1 - Z.b2z (HasFlags_Static f)) + Z.b2z (HasFlags_Const f).

(** No bool property shares its offset with a property that is not a bool
    property. *)
Definition same_kind_at_offset (P Q : Members.UEProperty) : Prop :=
  Members.GetOffset P = Members.GetOffset Q ->
  Members.IsA_BoolProperty P = Members.IsA_BoolProperty Q.

(** The second sort key of [ComparePredefinedMembers]: the name among static
    members, the offset among instance members. *)
Definition member_key_lt (L R : Members.PredefinedMember) : Prop :=
  (Members.bIsStatic L = true /\
   Members.lex_lt (Members.Name L) (Members.Name R)) \/
  (Members.bIsStatic L = false /\ Members.Offset L < Members.Offset R).

Definition member_rank (m : Members.PredefinedMember) : Z :=
  1 - Z.b2z (Members.bIsStatic m).

(** Two more properties at offset 0 that are not bool properties. *)
Definition int_at_0 : Members.UEProperty :=
  {| Members.IsA_BoolProperty := false; Members.GetOffset := 0;
     Members.GetBitIndex := 3 |}.
Definition float_at_0 : Members.UEProperty :=
  {| Members.IsA_BoolProperty := false; Members.GetOffset := 0;
     Members.GetBitIndex := 7 |}.

Definition mk_function (name : string) (static const inline : bool)
    : PredefinedFunction :=
  {| CustomComment := ""; CustomTemplateText := ""; ReturnType := "void";
     NameWithParams := name; NameWithParamsWithoutDefaults := name;
     Body := ""; bIsStatic := static; bIsConst := const;
     bIsBodyInline := inline |}.

End Functions.

(** ** Security::CalculateChecksum *)

Module Security.

(** One iteration: [Checksum = (Checksum << 1) ^ Byte] in [uint32_t]. *)
Definition checksum_step (Checksum Byte : Z) : Z :=
  uint32_wrap (Z.lxor (uint32_wrap (Z.shiftl Checksum 1)) Byte).

Definition CalculateChecksum (Data : list Z) : Z :=
  foldl checksum_step 0 Data.

End Security.

(** ** Tensors and inference (inference header) *)

Module MLInference.

(** A [float] is kept as an opaque 32-bit pattern: only the structure of
    tensors is modelled, not floating-point arithmetic. *)
Record TensorData := {
  Data : list Z;
  Shape : list Z;
  Name : string
}.

(** [TensorData() = default]. *)
Definition TensorData_new : TensorData :=
  {| Data := []; Shape := []; Name := "" |}.

(** [Size *= Dim] in [uint32_t], starting from 1. *)
Definition GetTotalSize (T : TensorData) : Z :=
  foldl (fun Size Dim => uint32_wrap (Size * Dim)) 1 (Shape T).

(** The exact product of the dimensions. *)
Definition shape_product (shape : list Z) : Z := foldr Z.mul 1 shape.

Section inference.
(** [Value * 0.5f] on a bit pattern. *)
Variable half : Z -> Z.

Definition RunInference (this : ML.EncryptedModelRuntime) (Input : TensorData)
    : TensorData :=
  if negb (ML.bIsLoaded this) then TensorData_new
  else
    {| Data := map half (Data Input); Shape := Shape Input;
       Name := "output" |}.

(** The overload on a vector of inputs: one [push_back] per input. *)
Definition RunInference_batch (this : ML.EncryptedModelRuntime)
    (Inputs : list TensorData) : list TensorData :=
  foldl (fun Outputs Input => Outputs ++ [RunInference this Input]) []
    Inputs.
End inference.

End MLInference.

(** ** The keystream of the XOR obfuscation *)

Module Cipher.

(** The byte both loops XOR into position [i]:
    [Key.Key[i % 32] ^ Key.IV[i % 16]]. *)
Definition keystream (K : ML.EncryptionKey) (i : nat) : Z :=
  uint8_wrap
    (Z.lxor (ML.at_index (ML.Key K) (i mod ML.KEY_SIZE))
            (ML.at_index (ML.IV K) (i mod ML.IV_SIZE))).

(** The container with its encrypted bytes replaced. *)
Definition with_data (E : ML.EncryptedModelData) (d : list Z)
    : ML.EncryptedModelData :=
  {| ML.EncryptedData := d;
     ML.OriginalSize := ML.OriginalSize E;
     ML.EncryptedSize := ML.EncryptedSize E;
     ML.ModelVersion := ML.ModelVersion E;
     ML.ModelName := ML.ModelName E |}.

(** The runtime after a successful load of [Model] with [K]. *)
Definition loaded_runtime (Model : ML.EncryptedModelData)
    (K : ML.EncryptionKey) (decrypted : list Z) : ML.EncryptedModelRuntime :=
  {| ML.EncryptedModel := Model;
     ML.DecryptedModel := decrypted;
     ML.RuntimeKey := K;
     ML.bIsLoaded := true |}.

End Cipher.

(** * Properties *)

Example Encrypt_5 :
  ML.EncryptedData (ML.Encrypt [1; 2; 3; 4; 5] ML.GenerateKey)
  = [123; 108; 89; 114; 119].
Proof. vm_compute. reflexivity. Qed.

(** ** The XOR loops *)

Section xor_loop_facts.
Import ML.
Variable K : EncryptionKey.

Lemma xor_loop_length Src n R : length (xor_loop K Src n R) = length R.
Proof.
  unfold xor_loop. revert R.
  induction (seq 0 n) as [|i l IH]; intros R; simpl; [done|].
  by rewrite IH, length_insert.
Qed.

Lemma xor_loop_S Src n R :
  xor_loop K Src (S n) R = <[n := xor_byte K Src n]> (xor_loop K Src n R).
Proof. unfold xor_loop. by rewrite seq_S, foldl_app. Qed.

(** After [n] iterations the first [n] cells hold the XOR-ed bytes and the
    rest of the buffer is untouched. *)
Lemma xor_loop_prefix Src n R :
  (n <= length R)%nat ->
  xor_loop K Src n R = map (xor_byte K Src) (seq 0 n) ++ drop n R.
Proof.
  induction n as [|n IH]; intros Hn; [done|].
  rewrite xor_loop_S, IH by lia.
  rewrite seq_S, map_app, <- app_assoc. simpl.
  assert (Hlen : length (map (xor_byte K Src) (seq 0 n)) = n)
    by (by rewrite length_map, length_seq).
  rewrite insert_app_r_alt by lia. rewrite Hlen, Nat.sub_diag.
  destruct (drop n R) as [|x R'] eqn:Hd.
  - apply (f_equal length) in Hd. rewrite length_drop in Hd. simpl in Hd. lia.
  - simpl. do 2 f_equal.
    change R' with (drop 1 (x :: R')). by rewrite <- Hd, drop_drop, Nat.add_1_r.
Qed.

Lemma xor_loop_full Src R :
  xor_loop K Src (length R) R = map (xor_byte K Src) (seq 0 (length R)).
Proof. by rewrite xor_loop_prefix, drop_all, app_nil_r. Qed.

Lemma xor_loop_lookup Src n R i :
  (n <= length R)%nat -> (i < n)%nat ->
  xor_loop K Src n R !! i = Some (xor_byte K Src i).
Proof.
  intros Hn Hi. rewrite xor_loop_prefix by done.
  rewrite lookup_app_l by (rewrite length_map, length_seq; lia).
  rewrite list_lookup_fmap, lookup_seq_lt by done. done.
Qed.

Lemma uint8_wrap_testbit z n :
  0 <= n ->
  Z.testbit (uint8_wrap z) n = (n <? 8) && Z.testbit z n.
Proof.
  intros Hn. unfold uint8_wrap. destruct (Z.ltb_spec n 8).
  - by rewrite Z.mod_pow2_bits_low.
  - by rewrite Z.mod_pow2_bits_high by lia.
Qed.

Lemma uint8_testbit_high d n : is_uint8 d -> 8 <= n -> Z.testbit d n = false.
Proof.
  intros Hd Hn. rewrite <- (Z.mod_small d (2 ^ 8)) by apply Hd.
  apply Z.mod_pow2_bits_high. lia.
Qed.

(** XOR-ing twice with the same key and IV bytes gives the byte back. *)
Lemma xor_twice d k v :
  is_uint8 d ->
  uint8_wrap (Z.lxor (Z.lxor (uint8_wrap (Z.lxor (Z.lxor d k) v)) k) v) = d.
Proof.
  intros Hd. apply Z.bits_inj'. intros n Hn.
  rewrite uint8_wrap_testbit, !Z.lxor_spec, uint8_wrap_testbit, !Z.lxor_spec
    by done.
  destruct (Z.ltb_spec n 8); simpl.
  - by destruct (Z.testbit d n), (Z.testbit k n), (Z.testbit v n).
  - by rewrite uint8_testbit_high.
Qed.

Lemma Decrypt_length E : length (Decrypt E K) = Z.to_nat (OriginalSize E).
Proof. unfold Decrypt. by rewrite xor_loop_length, length_replicate. Qed.

Lemma Encrypt_data_length Data :
  length (EncryptedData (Encrypt Data K)) = length Data.
Proof. simpl. by rewrite xor_loop_length, length_replicate. Qed.

Lemma Encrypt_OriginalSize Data :
  OriginalSize (Encrypt Data K) = uint32_wrap (Z.of_nat (length Data)).
Proof. done. Qed.

Lemma Encrypt_data_lookup Data i :
  (i < length Data)%nat ->
  EncryptedData (Encrypt Data K) !! i = Some (xor_byte K Data i).
Proof.
  intros Hi. simpl. apply xor_loop_lookup; [|done].
  by rewrite length_replicate.
Qed.

Lemma Decrypt_Encrypt_small Data :
  is_bytes Data ->
  Z.of_nat (length Data) < 2 ^ 32 ->
  Decrypt (Encrypt Data K) K = Data.
Proof.
  intros Hb Hlen.
  assert (Hsz : Z.to_nat (OriginalSize (Encrypt Data K)) = length Data).
  { rewrite Encrypt_OriginalSize. unfold uint32_wrap.
    rewrite Z.mod_small by lia. apply Nat2Z.id. }
  apply list_eq. intros i.
  destruct (decide (i < length Data)%nat) as [Hi|Hi].
  - unfold Decrypt. rewrite Hsz, length_replicate, Encrypt_data_length.
    rewrite Nat.min_id.
    rewrite xor_loop_lookup by (by rewrite ?length_replicate).
    destruct (lookup_lt_is_Some_2 Data i Hi) as [d Hd]. rewrite Hd. f_equal.
    unfold xor_byte at 1, at_index at 1.
    rewrite Encrypt_data_lookup by done. simpl.
    unfold xor_byte, at_index at 1. rewrite Hd. simpl.
    apply xor_twice. by eapply Forall_lookup_1.
  - rewrite (lookup_ge_None_2 Data) by lia.
    apply lookup_ge_None_2. rewrite Decrypt_length, Hsz. lia.
Qed.
End xor_loop_facts.

(** ** Encrypt / Decrypt *)

Lemma Decrypt_Encrypt_wrapped (K : ML.EncryptionKey) (Data : list Z) :
  Z.of_nat (length Data) = 2 ^ 32 ->
  ML.Decrypt (ML.Encrypt Data K) K = [].
Proof.
  intros Hlen. apply length_zero_iff_nil.
  rewrite Decrypt_length, Encrypt_OriginalSize, Hlen.
  unfold uint32_wrap. by rewrite Z.mod_same by lia.
Qed.

Lemma four_gib_length : Z.of_nat (length ML.four_gib) = 2 ^ 32.
Proof.
  unfold ML.four_gib. rewrite length_replicate. apply Z2Nat.id. lia.
Qed.

Lemma four_gib_bytes : is_bytes ML.four_gib.
Proof. apply Forall_replicate. unfold is_uint8. lia. Qed.

(** C9, as stated, fails: a vector of [2^32] bytes is a byte vector, its size
    is truncated to [0] by the cast to [uint32_t], and [Decrypt] returns the
    empty vector. *)
Lemma C9_counterexample :
  is_bytes ML.four_gib /\
  ML.Decrypt (ML.Encrypt ML.four_gib ML.GenerateKey) ML.GenerateKey = [] /\
  ML.Decrypt (ML.Encrypt ML.four_gib ML.GenerateKey) ML.GenerateKey
    <> ML.four_gib.
Proof.
  split; [apply four_gib_bytes|].
  pose proof (Decrypt_Encrypt_wrapped ML.GenerateKey _ four_gib_length) as HD.
  split; [exact HD|].
  rewrite HD. intros Heq.
  pose proof four_gib_length as Hlen. rewrite <- Heq in Hlen.
  change (Z.of_nat (@length Z [])) with 0 in Hlen. lia.
Qed.

(** C9 (amended): for every byte vector of fewer than [2^32] bytes and every
    key, decrypting the encrypted vector returns the vector: same length,
    same byte at every index. *)
Theorem C9_Decrypt_Encrypt_roundtrip (Data : list Z) (K : ML.EncryptionKey) :
  is_bytes Data ->
  Z.of_nat (length Data) < 2 ^ 32 ->
  ML.Decrypt (ML.Encrypt Data K) K = Data /\
  length (ML.Decrypt (ML.Encrypt Data K) K) = length Data /\
  forall i : nat, ML.Decrypt (ML.Encrypt Data K) K !! i = Data !! i.
Proof.
  intros Hb Hlen.
  pose proof (Decrypt_Encrypt_small K Data Hb Hlen) as ->. done.
Qed.

Lemma C9_roundtrip_witness :
  is_bytes [1; 2; 3; 4; 5] /\
  Z.of_nat (length [1; 2; 3; 4; 5]) < 2 ^ 32 /\
  ML.Decrypt (ML.Encrypt [1; 2; 3; 4; 5] ML.GenerateKey) ML.GenerateKey
  = [1; 2; 3; 4; 5].
Proof.
  assert (Hb : is_bytes [1; 2; 3; 4; 5])
    by (repeat constructor; unfold is_uint8; lia).
  assert (Hl : Z.of_nat (length [1; 2; 3; 4; 5]) < 2 ^ 32) by (simpl; lia).
  split_and!; [exact Hb|exact Hl|].
  apply (C9_Decrypt_Encrypt_roundtrip [1; 2; 3; 4; 5] ML.GenerateKey Hb Hl).
Defined.

(** ** LoadModel *)

Lemma VerifyModel_spec (Model : ML.EncryptedModelData) :
  ML.VerifyModel Model = true <->
  0 < ML.OriginalSize Model /\ 0 < ML.EncryptedSize Model /\
  ML.EncryptedSize Model = Z.of_nat (length (ML.EncryptedData Model)).
Proof.
  unfold ML.VerifyModel.
  rewrite !andb_true_iff, !Z.ltb_lt, Z.eqb_eq. tauto.
Qed.

(** The check after decryption: the vector built by [Decrypt] always has
    [OriginalSize] cells. *)
Lemma decrypted_size_check (Model : ML.EncryptedModelData)
    (K : ML.EncryptionKey) :
  0 < ML.OriginalSize Model ->
  Nat.eqb (length (ML.Decrypt Model K)) 0
  || negb (Z.of_nat (length (ML.Decrypt Model K)) =? ML.OriginalSize Model)
  = false.
Proof.
  intros Hpos. rewrite Decrypt_length.
  apply orb_false_iff. split.
  - apply Nat.eqb_neq. lia.
  - apply negb_false_iff, Z.eqb_eq. lia.
Qed.

Lemma LoadModel_result this Model K :
  fst (ML.LoadModel this Model K) = ML.VerifyModel Model.
Proof.
  unfold ML.LoadModel. destruct (ML.VerifyModel Model) eqn:HV; simpl; [|done].
  apply VerifyModel_spec in HV as (Hpos & _).
  by rewrite decrypted_size_check.
Qed.

Lemma LoadModel_IsLoaded this Model K :
  ML.IsLoaded (snd (ML.LoadModel this Model K))
  = ML.bIsLoaded this || ML.VerifyModel Model.
Proof.
  unfold ML.LoadModel. destruct (ML.VerifyModel Model) eqn:HV; simpl.
  - apply VerifyModel_spec in HV as (Hpos & _).
    rewrite decrypted_size_check by done. simpl. by rewrite orb_true_r.
  - by rewrite orb_false_r.
Qed.

(** C10, as stated, fails on a runtime that already holds a model: a second
    [LoadModel] with a container that does not verify returns [false] and
    leaves the object untouched, so [IsLoaded()] still answers [true]. *)
Lemma C10_counterexample :
  let loaded :=
    snd (ML.LoadModel ML.EncryptedModelRuntime_new ML.sample_model
           ML.GenerateKey) in
  ML.VerifyModel ML.EncryptedModelData_new = false /\
  fst (ML.LoadModel loaded ML.EncryptedModelData_new ML.GenerateKey) = false /\
  ML.IsLoaded
    (snd (ML.LoadModel loaded ML.EncryptedModelData_new ML.GenerateKey))
  = true.
Proof. vm_compute. done. Qed.

(** C10 (amended): [LoadModel(Model, Key)] returns [true] if and only if
    [Security::VerifyModel(Model)] does; when the model verifies, the check
    made after decryption cannot fail; afterwards [IsLoaded()] answers [true]
    exactly when [LoadModel] returned [true] or the runtime was loaded before
    the call, so on a freshly constructed runtime exactly when [LoadModel]
    returned [true]. *)
Theorem C10_LoadModel_iff_VerifyModel (this : ML.EncryptedModelRuntime)
    (Model : ML.EncryptedModelData) (K : ML.EncryptionKey) :
  fst (ML.LoadModel this Model K) = ML.VerifyModel Model /\
  ML.VerifyModel Model
  && (Nat.eqb (length (ML.Decrypt Model K)) 0
      || negb (Z.of_nat (length (ML.Decrypt Model K))
               =? ML.OriginalSize Model))
  = false /\
  ML.IsLoaded (snd (ML.LoadModel this Model K))
  = ML.bIsLoaded this || fst (ML.LoadModel this Model K) /\
  ML.IsLoaded (snd (ML.LoadModel ML.EncryptedModelRuntime_new Model K))
  = fst (ML.LoadModel ML.EncryptedModelRuntime_new Model K).
Proof.
  rewrite !LoadModel_result, !LoadModel_IsLoaded. repeat split; try done.
  destruct (ML.VerifyModel Model) eqn:HV; [|done].
  apply VerifyModel_spec in HV as (Hpos & _).
  by rewrite decrypted_size_check.
Qed.

(** ** Member comparators *)

Section comparators.
Import Members.

Lemma ascii_compare_lt c1 c2 :
  Ascii.compare c1 c2 = Lt <-> (Ascii.N_of_ascii c1 < Ascii.N_of_ascii c2)%N.
Proof. unfold Ascii.compare. by rewrite N.compare_lt_iff. Qed.

Lemma ascii_compare_refl c : Ascii.compare c c = Eq.
Proof. unfold Ascii.compare. apply N.compare_refl. Qed.

(** [std::string::operator<] decides the lexicographic order. *)
Lemma string_lt_lex a b : string_lt a b = true <-> lex_lt a b.
Proof.
  unfold string_lt, String.ltb. revert b.
  induction a as [|c1 a IH]; intros [|c2 b]; simpl.
  - split; [done|inversion 1].
  - split; [constructor|done].
  - split; [done|inversion 1].
  - destruct (Ascii.compare c1 c2) eqn:Hc.
    + apply Ascii.compare_eq_iff in Hc as ->. rewrite IH. split.
      * by constructor.
      * inversion 1; subst; [lia|done].
    + split; [intros _; constructor; by apply ascii_compare_lt|done].
    + split; [done|].
      assert (Hgt : (Ascii.N_of_ascii c2 < Ascii.N_of_ascii c1)%N).
      { apply N.compare_gt_iff. exact Hc. }
      inversion 1; subst; [lia|].
      rewrite ascii_compare_refl in Hc. done.
Qed.

Lemma ComparePredefinedMembers_spec L R :
  ComparePredefinedMembers L R = true <-> sorted_before L R.
Proof.
  unfold ComparePredefinedMembers, sorted_before, bool_gt.
  destruct (bIsStatic L), (bIsStatic R); simpl;
    rewrite ?string_lt_lex, ?Z.ltb_lt; intuition (try done; try lia).
Qed.

Lemma CompareUnrealProperties_spec L R :
  CompareUnrealProperties L R = true <-> property_before L R.
Proof.
  unfold CompareUnrealProperties, property_before.
  destruct (IsA_BoolProperty L), (IsA_BoolProperty R); simpl;
    try destruct (Z.eqb_spec (GetOffset L) (GetOffset R));
    rewrite Z.ltb_lt; intuition (try done; try lia).
Qed.

Lemma CompareUnrealProperties_irrefl P : CompareUnrealProperties P P = false.
Proof.
  apply not_true_iff_false. rewrite CompareUnrealProperties_spec.
  unfold property_before. lia.
Qed.

Lemma CompareUnrealProperties_trans P Q R :
  CompareUnrealProperties P Q = true ->
  CompareUnrealProperties Q R = true ->
  CompareUnrealProperties P R = true.
Proof.
  rewrite !CompareUnrealProperties_spec. unfold property_before.
  intros [H1|(H1 & HP & HQ & Hb1)] [H2|(H2 & HQ' & HR & Hb2)];
    [left; lia|left; lia|left; lia|right].
  repeat split; [lia|done|done|lia].
Qed.
End comparators.

(** C7, as stated, fails for [ComparePredefinedMembers]: two predefined
    bit-field members at the same offset with bit indices 0 and 1 are in the
    stated order, but the comparator answers [false] both ways. *)
Lemma C7_counterexample :
  Members.sorted_before_stated Members.flag_bit0 Members.flag_bit1 /\
  Members.ComparePredefinedMembers Members.flag_bit0 Members.flag_bit1 = false
  /\
  Members.ComparePredefinedMembers Members.flag_bit1 Members.flag_bit0 = false.
Proof.
  split; [|by vm_compute].
  right; right. repeat split; try done. right. repeat split; try done.
Qed.

(** C7 (amended): [ComparePredefinedMembers] puts static members before
    instance members, orders two static members lexically by name and two
    instance members by ascending offset (bit indices are not compared);
    [CompareUnrealProperties] orders reflected properties by ascending offset
    and two bool (bit-field) properties at the same offset by ascending bit
    index. *)
Theorem C7_member_order (L R : Members.PredefinedMember)
    (P Q : Members.UEProperty) :
  (Members.ComparePredefinedMembers L R = true <-> Members.sorted_before L R)
  /\
  (Members.CompareUnrealProperties P Q = true <-> Members.property_before P Q).
Proof.
  split.
  - apply ComparePredefinedMembers_spec.
  - apply CompareUnrealProperties_spec.
Qed.

(** C8: [CompareUnrealProperties] is irreflexive and transitive, but its
    incomparability is not transitive: bit 0 and a non-bool property at
    offset 0 are incomparable, so are the non-bool property and bit 1, yet
    bit 0 compares less than bit 1. *)
Theorem C8_incomparability_not_transitive :
  (forall P, Members.CompareUnrealProperties P P = false) /\
  (forall P Q R,
     Members.CompareUnrealProperties P Q = true ->
     Members.CompareUnrealProperties Q R = true ->
     Members.CompareUnrealProperties P R = true) /\
  Members.incomparable Members.CompareUnrealProperties
    Members.bool_bit0 Members.other_at_0 /\
  Members.incomparable Members.CompareUnrealProperties
    Members.other_at_0 Members.bool_bit1 /\
  Members.CompareUnrealProperties Members.bool_bit0 Members.bool_bit1 = true /\
  ~ Members.incomparable Members.CompareUnrealProperties
      Members.bool_bit0 Members.bool_bit1.
Proof.
  split; [apply CompareUnrealProperties_irrefl|].
  split; [apply CompareUnrealProperties_trans|].
  repeat split; try done. by intros [? _].
Qed.

Example walk_scenario_A :
  Graph.visit_all [0; 1; 2]%nat Graph.scenario_A
  = Some (Ok {| Graph.on_stack := []; Graph.emitted := [2; 1; 0]%nat;
                Graph.forward_declared := [] |}).
Proof. vm_compute. reflexivity. Qed.

Example walk_inheritance_cycle :
  Graph.visit_all [0; 1]%nat [Graph.inherits 0 1; Graph.inherits 1 0]
  = Some (Fatal (UnresolvableCycle 1 0 Inherits)).
Proof. vm_compute. reflexivity. Qed.

Example walk_scenario_B :
  Graph.visit_all [0; 1]%nat Graph.scenario_B
  = Some (Fatal (UnresolvableCycle 1 0 MemberValue)).
Proof. vm_compute. reflexivity. Qed.

Example walk_scenario_C :
  Graph.visit_all [1; 0]%nat Graph.scenario_C
  = Some (Ok {| Graph.on_stack := []; Graph.emitted := [1; 0]%nat;
                Graph.forward_declared := [Graph.by_pointer 1 0] |}).
Proof. vm_compute. reflexivity. Qed.

(** ** The dependency walk *)

Lemma before_app l l' a b : Graph.before l a b -> Graph.before (l ++ l') a b.
Proof.
  intros (l1 & l2 & -> & Ha). exists l1, (l2 ++ l').
  by rewrite <- app_assoc.
Qed.

Lemma before_snoc l a b : a ∈ l -> Graph.before (l ++ [b]) a b.
Proof. intros Ha. by exists l, []. Qed.

Section walk_facts.
Import Graph.
Variable g : list Edge.
Variable nodes : list nat.
Hypothesis closed :
  forall e, e ∈ g -> e_from e ∈ nodes -> e_to e ∈ nodes.

#[local] Open Scope nat_scope.

#[local] Abbreviation visit_post := (Graph.visit_post g nodes).
#[local] Abbreviation visit_pre := (Graph.visit_pre g nodes).
#[local] Abbreviation deps_post := (Graph.deps_post g nodes).

Lemma walk_inv_reclassify w e n s0 :
  walk_inv g nodes w -> e ∈ g -> breakable e = true ->
  on_stack w = n :: s0 -> e_from e = n -> e_to e ∈ on_stack w ->
  (forall m, m ∈ s0 -> rtc (gating_dep g) m n) ->
  walk_inv g nodes (reclassify e w).
Proof.
  intros [] Hg Hb Hs Hfrom Hto Hreach. split; simpl; try done.
  - intros e' He' Hgate Hem.
    destruct (inv_order0 e' He' Hgate Hem) as [?|?]; [left|by right].
    apply elem_of_app. by left.
  - intros e' [He'|He']%elem_of_app; [by apply inv_forward0|].
    apply list_elem_of_singleton in He' as ->. repeat split; try done.
    rewrite Hfrom. rewrite Hs in Hto.
    apply elem_of_cons in Hto as [->|Hto]; [done|by apply Hreach].
Qed.

Lemma walk_inv_push w n :
  walk_inv g nodes w -> n ∈ nodes -> n ∉ on_stack w -> n ∉ emitted w ->
  walk_inv g nodes (push n w).
Proof.
  intros [] Hn Hs He. split; simpl; try done.
  - by apply NoDup_cons.
  - intros m [->|Hm]%elem_of_cons; [done|by apply inv_disjoint0].
  - intros m [->|Hm]%elem_of_cons; [done|by apply inv_stack_nodes0].
Qed.

Lemma walk_inv_emit w n s0 :
  walk_inv g nodes w -> on_stack w = n :: s0 ->
  (forall e, e ∈ deps g n -> gates e = true ->
     e ∈ forward_declared w \/ e_to e ∈ emitted w) ->
  walk_inv g nodes (emit n w).
Proof.
  intros [] Hs Hdeps.
  assert (Hn : n ∈ on_stack w) by (rewrite Hs; left).
  rewrite Hs in inv_stack_nodup0. apply NoDup_cons in inv_stack_nodup0.
  destruct inv_stack_nodup0 as [Hn0 Hs0].
  split; simpl; rewrite ?Hs; simpl; try done.
  - apply NoDup_app. split_and!; [done| |apply NoDup_singleton].
    intros m Hm ->%list_elem_of_singleton. by apply (inv_disjoint0 n).
  - intros m Hm [Hm'| ->%list_elem_of_singleton]%elem_of_app.
    + apply (inv_disjoint0 m); [|done]. rewrite Hs. by right.
    + done.
  - intros m Hm. apply inv_stack_nodes0. rewrite Hs. by right.
  - intros m [Hm| ->%list_elem_of_singleton]%elem_of_app;
      [by apply inv_emitted_nodes0|by apply inv_stack_nodes0].
  - intros e He Hgate [Hem|Hem%list_elem_of_singleton]%elem_of_app.
    + destruct (inv_order0 e He Hgate Hem) as [?|?]; [by left|right].
      by apply before_app.
    + destruct (Hdeps e) as [?|?]; [|done|by left|right].
      * apply list_elem_of_filter. done.
      * rewrite Hem. by apply before_snoc.
Qed.

Lemma visit_deps_ok fuel n s0 (rec : Walk -> nat -> option (result Walk)) :
  (forall w t, visit_pre fuel w t -> visit_post w t (rec w t)) ->
  forall es w,
    (forall e, e ∈ es -> e ∈ g /\ e_from e = n) ->
    walk_inv g nodes w -> on_stack w = n :: s0 ->
    (forall m, m ∈ s0 -> rtc (gating_dep g) m n) ->
    length nodes <= fuel + length (on_stack w) ->
    deps_post es w (visit_deps rec es w).
Proof.
  intros Hrec es. induction es as [|e es IH]; intros w Hes Hinv Hs Hreach Hfuel.
  { simpl. split_and!; [done|done|by exists []; rewrite app_nil_r
                        |by exists []; rewrite app_nil_r|].
    intros e He. by apply elem_of_nil in He. }
  assert (Hes' : forall e', e' ∈ es -> e' ∈ g /\ e_from e' = n).
  { intros e' He'. apply Hes. by right. }
  destruct (Hes e) as [Heg Hefrom]; [by left|].
  simpl. destruct (gates e) eqn:Hgate; simpl.
  2:{ specialize (IH w Hes' Hinv Hs Hreach Hfuel).
      destruct (visit_deps rec es w) as [[w'|err]|]; simpl in *; try done.
      destruct IH as (? & ? & ? & ? & Hall). split_and!; try done.
      intros e' [->|He']%elem_of_cons Hg'; [congruence|by apply Hall]. }
  case_bool_decide as Hem.
  { specialize (IH w Hes' Hinv Hs Hreach Hfuel).
    destruct (visit_deps rec es w) as [[w'|err]|]; simpl in *; try done.
    destruct IH as (? & ? & (l & Hl) & ? & Hall). split_and!; try done.
    - by exists l.
    - intros e' [->|He']%elem_of_cons Hg'; [|by apply Hall].
      right. rewrite Hl. apply elem_of_app. by left. }
  case_bool_decide as Hst.
  { destruct (breakable e) eqn:Hbr.
    - assert (Hinv' : walk_inv g nodes (reclassify e w)).
      { by eapply walk_inv_reclassify. }
      specialize (IH (reclassify e w) Hes' Hinv' Hs Hreach Hfuel).
      destruct (visit_deps rec es (reclassify e w)) as [[w'|err]|];
        simpl in *; try done.
      destruct IH as (? & ? & ? & (f & Hf) & Hall). split_and!; try done.
      + exists ([e] ++ f). by rewrite Hf, <- app_assoc.
      + intros e' [->|He']%elem_of_cons Hg'; [|by apply Hall].
        left. rewrite Hf. apply elem_of_app. left.
        apply elem_of_app. right. by left.
    - simpl. exists e. split_and!; try done.
      rewrite Hefrom. rewrite Hs in Hst.
      apply elem_of_cons in Hst as [->|Hst]; [done|by apply Hreach]. }
  assert (Hn : n ∈ nodes).
  { apply (inv_stack_nodes _ _ _ Hinv). rewrite Hs. by left. }
  assert (Hpre : visit_pre fuel w (e_to e)).
  { split_and!; try done.
    - apply closed; [done|by rewrite Hefrom].
    - intros m Hm. apply rtc_r with n.
      + rewrite Hs in Hm.
        apply elem_of_cons in Hm as [->|Hm]; [done|by apply Hreach].
      + by exists e. }
  specialize (Hrec w (e_to e) Hpre).
  destruct (rec w (e_to e)) as [[w1|err]|]; simpl in *; try done.
  destruct Hrec as (Hinv1 & Hs1 & (l1 & Hl1) & (f1 & Hf1) & Hto).
  assert (Hfuel1 : length nodes <= fuel + length (on_stack w1))
    by (by rewrite Hs1).
  rewrite <- Hs1 in Hs.
  specialize (IH w1 Hes' Hinv1 Hs Hreach Hfuel1).
  destruct (visit_deps rec es w1) as [[w'|err]|]; simpl in *; try done.
  destruct IH as (? & Hs' & (l & Hl) & (f & Hf) & Hall). split_and!.
  - done.
  - congruence.
  - exists (l1 ++ l). by rewrite Hl, Hl1, <- app_assoc.
  - exists (f1 ++ f). by rewrite Hf, Hf1, <- app_assoc.
  - intros e' [->|He']%elem_of_cons Hg'; [|by apply Hall].
    right. rewrite Hl. apply elem_of_app. by left.
Qed.

Lemma stack_room w n :
  walk_inv g nodes w -> n ∈ nodes -> n ∉ on_stack w ->
  S (length (on_stack w)) <= length nodes.
Proof.
  intros Hinv Hn Hs.
  change (S (length (on_stack w))) with (length (n :: on_stack w)).
  apply submseteq_length, NoDup_submseteq.
  - apply NoDup_cons. split; [done|]. apply (inv_stack_nodup _ _ _ Hinv).
  - intros m [->|Hm]%elem_of_cons; [done|].
    by apply (inv_stack_nodes _ _ _ Hinv).
Qed.

Lemma visit_ok fuel :
  forall w n, visit_pre fuel w n -> visit_post w n (visit g fuel w n).
Proof.
  induction fuel as [|fuel IH]; intros w n (Hinv & Hn & Hs & Hreach & Hfuel).
  { pose proof (stack_room w n Hinv Hn Hs). simpl in *. lia. }
  simpl. case_bool_decide as Hem.
  { simpl. split_and!; [done|done|by exists []; rewrite app_nil_r
                        |by exists []; rewrite app_nil_r|done]. }
  pose proof (visit_deps_ok fuel n (on_stack w) (visit g fuel) IH
                (deps g n) (push n w)) as Hdeps.
  unfold deps_post in Hdeps.
  destruct (visit_deps (visit g fuel) (deps g n) (push n w))
    as [[w'|err]|]; simpl in *.
  - destruct Hdeps as (Hinv' & Hs' & (l & Hl) & (f & Hf) & Hall); try done.
    + intros e He. by apply list_elem_of_filter in He as [? ?].
    + by apply walk_inv_push.
    + lia.
    + split_and!.
      * by eapply walk_inv_emit.
      * by rewrite Hs'.
      * exists (l ++ [n]). by rewrite Hl, <- app_assoc.
      * by exists f.
      * apply elem_of_app. right. by left.
  - apply Hdeps; try done.
    + intros e He. by apply list_elem_of_filter in He as [? ?].
    + by apply walk_inv_push.
    + lia.
  - apply Hdeps; try done.
    + intros e He. by apply list_elem_of_filter in He as [? ?].
    + by apply walk_inv_push.
    + lia.
Qed.

Lemma visit_roots_ok fuel roots :
  forall w,
    walk_inv g nodes w -> on_stack w = [] ->
    (forall n, n ∈ roots -> n ∈ nodes) ->
    length nodes <= fuel ->
    roots_post g nodes roots w (visit_roots g fuel roots w).
Proof.
  induction roots as [|n roots IH]; intros w Hinv Hs Hroots Hfuel; simpl.
  { split_and!; try done. intros n Hn. by apply elem_of_nil in Hn. }
  assert (Hpre : visit_pre fuel w n).
  { split_and!; [done|apply Hroots; by left|..]; rewrite Hs; simpl.
    - apply not_elem_of_nil.
    - intros m Hm. by apply elem_of_nil in Hm.
    - lia. }
  pose proof (visit_ok fuel w n Hpre) as Hv.
  destruct (visit g fuel w n) as [[w1|err]|]; simpl in *; try done.
  destruct Hv as (Hinv1 & Hs1 & (l1 & Hl1) & _ & Hn1).
  rewrite Hs in Hs1.
  assert (Hroots' : forall m, m ∈ roots -> m ∈ nodes).
  { intros m Hm. apply Hroots. by right. }
  specialize (IH w1 Hinv1 Hs1 Hroots' Hfuel).
  destruct (visit_roots g fuel roots w1) as [[w'|err]|]; simpl in *; try done.
  destruct IH as (? & ? & Hall & Hmono). split_and!; try done.
  - intros m [->|Hm]%elem_of_cons; [by apply Hmono|by apply Hall].
  - intros m Hm. apply Hmono. rewrite Hl1. apply elem_of_app. by left.
Qed.
End walk_facts.

Lemma walk_inv_empty g nodes : Graph.walk_inv g nodes Graph.empty_walk.
Proof.
  split; simpl; try apply NoDup_nil_2;
    try (intros n Hn; by apply elem_of_nil in Hn).
  intros e _ _ He. by apply elem_of_nil in He.
Qed.

Lemma sort_nodes_elem nodes n : n ∈ Graph.sort_nodes nodes <-> n ∈ nodes.
Proof. unfold Graph.sort_nodes. by rewrite merge_sort_Permutation. Qed.

Lemma sort_edges_elem edges e : e ∈ Graph.sort_edges edges <-> e ∈ edges.
Proof. unfold Graph.sort_edges. by rewrite merge_sort_Permutation. Qed.

Lemma find_dangling_None nodes edges :
  Graph.find_dangling nodes edges = None ->
  forall e, e ∈ edges -> Graph.e_from e ∈ nodes -> Graph.e_to e ∈ nodes.
Proof.
  unfold Graph.find_dangling. intros Hf e He Hfrom.
  apply fmap_None, list_find_None in Hf.
  rewrite Forall_forall in Hf. specialize (Hf e He).
  unfold Graph.dangling in Hf. rewrite bool_decide_eq_true_2 in Hf by done.
  simpl in Hf. destruct (decide (Graph.e_to e ∈ nodes)) as [|Hn]; [done|].
  rewrite bool_decide_eq_false_2 in Hf by done. done.
Qed.

Lemma find_dangling_Some nodes edges e :
  Graph.find_dangling nodes edges = Some e ->
  e ∈ edges /\ Graph.e_from e ∈ nodes /\ Graph.e_to e ∉ nodes.
Proof.
  unfold Graph.find_dangling. intros Hf.
  apply fmap_Some in Hf as ([i e'] & Hf & ->).
  apply list_find_Some in Hf as (Hi & Hd & _). simpl.
  split; [by eapply list_elem_of_lookup_2|].
  unfold Graph.dangling in Hd. apply andb_true_iff in Hd as [H1 H2].
  apply bool_decide_eq_true in H1. apply negb_true_iff in H2.
  by apply bool_decide_eq_false in H2.
Qed.

Lemma visit_all_ok nodes edges :
  Graph.visit_all_post nodes edges (Graph.visit_all nodes edges).
Proof.
  unfold Graph.visit_all.
  destruct (Graph.find_dangling _ _) as [e|] eqn:Hd.
  { simpl. left. exists e. split; [done|].
    apply find_dangling_Some in Hd as (He & Hf & Ht).
    by rewrite sort_edges_elem, sort_nodes_elem in *. }
  pose proof (visit_roots_ok (Graph.sort_edges edges) (Graph.sort_nodes nodes)
                (find_dangling_None _ _ Hd)
                (S (length (Graph.sort_nodes nodes))) (Graph.sort_nodes nodes)
                Graph.empty_walk (walk_inv_empty _ _) eq_refl
                (fun n H => H) (Nat.le_succ_diag_r _)) as Hr.
  destruct (Graph.visit_roots _ _ _ _) as [[w|err]|]; simpl in *; try done.
  - destruct Hr as (? & ? & Hall & _). split_and!; try done.
    intros n Hn. by apply Hall, sort_nodes_elem.
  - by right.
Qed.

(** ** Ascending order on nodes and edges *)

#[local] Instance edge_le_trans : Transitive Graph.edge_le.
Proof. intros a b c. unfold Graph.edge_le. lia. Qed.

#[local] Instance edge_le_total : Total Graph.edge_le.
Proof. intros a b. unfold Graph.edge_le. lia. Qed.

#[local] Instance edge_le_antisym : AntiSymm (=) Graph.edge_le.
Proof.
  intros [f1 t1 k1 p1] [f2 t2 k2 p2]. unfold Graph.edge_le. simpl.
  intros H1 H2.
  assert (f1 = f2) as -> by lia. assert (t1 = t2) as -> by lia.
  assert (Hk : Graph.kind_rank k1 = Graph.kind_rank k2) by lia.
  assert (Hp : Graph.storage_rank p1 = Graph.storage_rank p2) by lia.
  destruct k1, k2, p1, p2; simpl in *; congruence.
Qed.

Lemma StronglySorted_filter {A} (R : relation A) (P : A -> Prop)
    `{!forall x, Decision (P x)} (l : list A) :
  StronglySorted R l -> StronglySorted R (filter P l).
Proof.
  induction 1 as [|x l Hl IH Hx]; [constructor|].
  rewrite filter_cons. destruct (decide (P x)); [|done].
  constructor; [done|].
  apply Forall_forall. intros y [_ Hy]%list_elem_of_filter.
  rewrite Forall_forall in Hx. by apply Hx.
Qed.

Lemma sort_edges_sorted edges :
  StronglySorted Graph.edge_le (Graph.sort_edges edges).
Proof. apply StronglySorted_merge_sort; apply _. Qed.

Lemma sort_nodes_sorted nodes : StronglySorted le (Graph.sort_nodes nodes).
Proof. apply StronglySorted_merge_sort; apply _. Qed.

(** Sorting forgets the iteration order of the container. *)
Lemma sort_edges_perm edges edges' :
  edges ≡ₚ edges' -> Graph.sort_edges edges = Graph.sort_edges edges'.
Proof.
  intros Hp. apply (StronglySorted_unique Graph.edge_le);
    try apply sort_edges_sorted.
  unfold Graph.sort_edges. by rewrite !merge_sort_Permutation.
Qed.

Lemma sort_nodes_perm nodes nodes' :
  nodes ≡ₚ nodes' -> Graph.sort_nodes nodes = Graph.sort_nodes nodes'.
Proof.
  intros Hp. apply (StronglySorted_unique le); try apply sort_nodes_sorted.
  unfold Graph.sort_nodes. by rewrite !merge_sort_Permutation.
Qed.

Lemma sort_edges_filter (P : Graph.Edge -> Prop) `{!forall x, Decision (P x)}
    edges :
  Graph.sort_edges (filter P edges) = filter P (Graph.sort_edges edges).
Proof.
  apply (StronglySorted_unique Graph.edge_le).
  - apply sort_edges_sorted.
  - apply StronglySorted_filter, sort_edges_sorted.
  - unfold Graph.sort_edges. by rewrite !merge_sort_Permutation.
Qed.

(** ** Member-pointer edges are not followed *)

Section pointer_edges.
Import Graph.

Lemma visit_deps_ext rec1 rec2 es :
  (forall w t, rec1 w t = rec2 w t) ->
  forall w, visit_deps rec1 es w = visit_deps rec2 es w.
Proof.
  intros Hrec. induction es as [|e es IH]; intros w; simpl; [done|].
  rewrite Hrec. repeat case_match; try done; by rewrite ?IH.
Qed.

Lemma visit_deps_gating rec es :
  forall w,
    visit_deps rec (filter (fun e => gates e = true) es) w
    = visit_deps rec es w.
Proof.
  induction es as [|e es IH]; intros w; [done|].
  rewrite filter_cons. destruct (decide (gates e = true)) as [Hg|Hg]; simpl.
  - rewrite Hg. simpl. repeat case_match; try done; by rewrite ?IH.
  - apply not_true_is_false in Hg. rewrite Hg. simpl. apply IH.
Qed.

Lemma deps_filter (P : Edge -> Prop) `{!forall x, Decision (P x)} g n :
  deps (filter P g) n = filter P (deps g n).
Proof.
  unfold deps. induction g as [|e g IH]; [done|].
  rewrite !filter_cons.
  destruct (decide (P e)), (decide (e_from e = n));
    rewrite ?filter_cons; repeat case_decide; try done; by rewrite IH.
Qed.

Lemma visit_gating g fuel :
  forall w n,
    visit (filter (fun e => gates e = true) g) fuel w n = visit g fuel w n.
Proof.
  induction fuel as [|fuel IH]; intros w n; simpl; [done|].
  rewrite deps_filter, visit_deps_gating.
  by rewrite (visit_deps_ext _ (visit g fuel)).
Qed.

Lemma visit_roots_gating g fuel roots :
  forall w,
    visit_roots (filter (fun e => gates e = true) g) fuel roots w
    = visit_roots g fuel roots w.
Proof.
  induction roots as [|n roots IH]; intros w; simpl; [done|].
  rewrite visit_gating. repeat case_match; try done; by rewrite IH.
Qed.

Lemma find_dangling_filter (P : Edge -> Prop) `{!forall x, Decision (P x)}
    nodes edges :
  find_dangling nodes edges = None ->
  find_dangling nodes (filter P edges) = None.
Proof.
  unfold find_dangling. intros Hf. apply fmap_None, list_find_None.
  apply fmap_None, list_find_None in Hf.
  rewrite Forall_forall in *. intros e [_ He]%list_elem_of_filter.
  by apply Hf.
Qed.

(** Removing every [MemberPointer] edge from the input changes nothing in a
    successful walk. *)
Lemma visit_all_gating nodes edges w :
  visit_all nodes edges = Some (Ok w) ->
  visit_all nodes (filter (fun e => gates e = true) edges) = Some (Ok w).
Proof.
  unfold visit_all.
  destruct (find_dangling _ (sort_edges edges)) as [e|] eqn:Hd; [done|].
  rewrite sort_edges_filter, find_dangling_filter by done.
  by rewrite visit_roots_gating.
Qed.
End pointer_edges.

(** ** Emission indices *)

Lemma emission_index_lookup (l : list nat) (n i : nat) :
  NoDup l -> l !! i = Some n -> Graph.emission_index l n = Some i.
Proof.
  intros Hnd Hi. unfold Graph.emission_index.
  assert (Hf : list_find (fun x => x = n) l = Some (i, n)).
  { apply list_find_Some. split_and!; [done|done|].
    intros j y Hj Hlt ->. assert (i = j) by by eapply NoDup_lookup. lia. }
  by rewrite Hf.
Qed.

Lemma before_emitted_before (l : list nat) (a b : nat) :
  NoDup l -> Graph.before l a b -> Graph.emitted_before l a b.
Proof.
  intros Hnd (l1 & l2 & -> & Ha).
  apply list_elem_of_lookup in Ha as [i Hi].
  exists i, (length l1). split_and!.
  - apply emission_index_lookup; [done|].
    by apply lookup_app_l_Some.
  - apply emission_index_lookup; [done|].
    by rewrite list_lookup_middle.
  - by eapply lookup_lt_Some.
Qed.

Lemma emitted_before_lt (l : list nat) (a b : nat) :
  Graph.emitted_before l a b -> Graph.emitted_before l b a -> False.
Proof.
  intros (ia & ib & Ha & Hb & Hlt) (ib' & ia' & Hb' & Ha' & Hlt').
  rewrite Ha in Ha'. rewrite Hb in Hb'. simplify_eq. lia.
Qed.

(** ** The walk is a topological order *)

Lemma emitted_before_trans (l : list nat) (a b c : nat) :
  Graph.emitted_before l a b -> Graph.emitted_before l b c ->
  Graph.emitted_before l a c.
Proof.
  intros (ia & ib & Ha & Hb & Hlt) (ib' & ic & Hb' & Hc & Hlt').
  rewrite Hb in Hb'. simplify_eq. exists ia, ic. split_and!; [done|done|lia].
Qed.

Lemma final_kind_gating w e :
  Graph.final_kind w e = MemberValue \/
  Graph.final_kind w e = Inherits ->
  Graph.gates e = true /\ e ∉ Graph.forward_declared w.
Proof.
  unfold Graph.final_kind, Graph.gates. case_bool_decide.
  - intros [?|?]; done.
  - intros [->| ->]; done.
Qed.

Lemma walk_order nodes edges w e :
  Graph.walk_inv (Graph.sort_edges edges) (Graph.sort_nodes nodes) w ->
  (forall n, n ∈ nodes -> n ∈ Graph.emitted w) ->
  e ∈ edges -> Graph.e_from e ∈ nodes ->
  Graph.gates e = true -> e ∉ Graph.forward_declared w ->
  Graph.emitted_before (Graph.emitted w) (Graph.e_to e) (Graph.e_from e).
Proof.
  intros Hinv Hall He Hfrom Hg Hf.
  apply before_emitted_before; [apply (Graph.inv_emitted_nodup _ _ _ Hinv)|].
  destruct (Graph.inv_order _ _ _ Hinv e) as [?|?]; try done.
  - by apply sort_edges_elem.
  - by apply Hall.
Qed.

Lemma gating_dep_sorted edges a b :
  rtc (Graph.gating_dep (Graph.sort_edges edges)) a b ->
  rtc (Graph.gating_dep edges) a b.
Proof.
  apply rtc_subrel. intros x y (e & He & ?). exists e.
  by rewrite <- sort_edges_elem.
Qed.

(** Over a node set without dangling references whose followed edges form no
    cycle, the walk returns an order. *)
Lemma visit_all_acyclic nodes edges :
  (forall e, e ∈ edges -> Graph.e_from e ∈ nodes -> Graph.e_to e ∈ nodes) ->
  (forall x, ~ tc (Graph.gating_dep edges) x x) ->
  exists w, Graph.visit_all nodes edges = Some (Ok w).
Proof.
  intros Hclosed Hacyclic. pose proof (visit_all_ok nodes edges) as Hpost.
  destruct (Graph.visit_all nodes edges) as [[w|err]|]; simpl in Hpost.
  - by exists w.
  - exfalso.
    destruct Hpost as [(e & _ & He & Hf & Ht)|(_ & e & _ & He & Hg & _ & Hr)].
    + by apply Ht, Hclosed.
    + apply (Hacyclic (Graph.e_from e)).
      apply tc_rtc_r with (Graph.e_to e); [|by apply gating_dep_sorted].
      apply tc_once. exists e. split_and!; try done.
      by apply sort_edges_elem.
  - done.
Qed.

Lemma visit_all_order nodes edges w :
  Graph.visit_all nodes edges = Some (Ok w) ->
  NoDup (Graph.emitted w) /\
  (forall n, n ∈ Graph.emitted w <-> n ∈ nodes) /\
  (forall e, e ∈ edges -> Graph.e_from e ∈ nodes ->
     Graph.final_kind w e = MemberValue \/
     Graph.final_kind w e = Inherits ->
     Graph.emitted_before (Graph.emitted w) (Graph.e_to e) (Graph.e_from e)).
Proof.
  intros Hw. pose proof (visit_all_ok nodes edges) as Hpost.
  rewrite Hw in Hpost. destruct Hpost as (_ & Hinv & _ & Hall).
  split_and!.
  - apply (Graph.inv_emitted_nodup _ _ _ Hinv).
  - intros n. split; [|apply Hall].
    intros Hn. by apply sort_nodes_elem, (Graph.inv_emitted_nodes _ _ _ Hinv).
  - intros e He Hfrom [Hg Hf]%final_kind_gating. by eapply walk_order.
Qed.

(** C1: the walk always terminates with a result, and returns an order
    whenever the node set has no dangling reference and its followed edges
    form no cycle. A walk that returns an order has visited every node of
    the node set exactly once; every edge whose final kind is member-value or
    inherits has its dependency at a strictly smaller emission index than its
    dependent; and member-pointer edges do not gate: the walk is the same
    without them. *)
Theorem C1_walk_order (nodes : list nat) (edges : list Graph.Edge) :
  is_Some (Graph.visit_all nodes edges) /\
  ((forall e, e ∈ edges -> Graph.e_from e ∈ nodes -> Graph.e_to e ∈ nodes) ->
   (forall x, ~ tc (Graph.gating_dep edges) x x) ->
   exists w, Graph.visit_all nodes edges = Some (Ok w)) /\
  (forall w,
     Graph.visit_all nodes edges = Some (Ok w) ->
     NoDup (Graph.emitted w) /\
     (forall n, n ∈ Graph.emitted w <-> n ∈ nodes) /\
     (forall e, e ∈ edges -> Graph.e_from e ∈ nodes ->
        Graph.final_kind w e = MemberValue \/
        Graph.final_kind w e = Inherits ->
        Graph.emitted_before (Graph.emitted w)
          (Graph.e_to e) (Graph.e_from e)) /\
     Graph.visit_all nodes (filter (fun e => Graph.gates e = true) edges)
     = Some (Ok w)).
Proof.
  split_and!.
  - pose proof (visit_all_ok nodes edges) as Hpost.
    by destruct (Graph.visit_all nodes edges).
  - apply visit_all_acyclic.
  - intros w Hw. destruct (visit_all_order _ _ _ Hw) as (? & ? & ?).
    split_and!; try done. by apply visit_all_gating.
Qed.

Lemma C1_walk_order_witness :
  Graph.visit_all [0; 1; 2]%nat Graph.scenario_A = Some (Ok Graph.walk_A) /\
  NoDup (Graph.emitted Graph.walk_A) /\
  (forall n, n ∈ Graph.emitted Graph.walk_A <-> n ∈ [0; 1; 2]%nat) /\
  (forall e, e ∈ Graph.scenario_A -> Graph.e_from e ∈ [0; 1; 2]%nat ->
     Graph.final_kind Graph.walk_A e = MemberValue \/
     Graph.final_kind Graph.walk_A e = Inherits ->
     Graph.emitted_before (Graph.emitted Graph.walk_A)
       (Graph.e_to e) (Graph.e_from e)) /\
  Graph.visit_all [0; 1; 2]%nat
    (filter (fun e => Graph.gates e = true) Graph.scenario_A)
  = Some (Ok Graph.walk_A).
Proof.
  assert (Hw : Graph.visit_all [0; 1; 2]%nat Graph.scenario_A
               = Some (Ok Graph.walk_A)) by (vm_compute; reflexivity).
  split; [exact Hw|].
  apply (proj2 (proj2 (C1_walk_order [0; 1; 2]%nat Graph.scenario_A))
           Graph.walk_A Hw).
Defined.

(** ** Value cycles *)

Lemma value_dep_order nodes edges w :
  Graph.find_dangling (Graph.sort_nodes nodes) (Graph.sort_edges edges)
  = None ->
  Graph.walk_inv (Graph.sort_edges edges) (Graph.sort_nodes nodes) w ->
  (forall n, n ∈ nodes -> n ∈ Graph.emitted w) ->
  forall a b, tc (Graph.value_dep edges) a b -> a ∈ nodes ->
    b ∈ nodes /\ Graph.emitted_before (Graph.emitted w) b a.
Proof.
  intros Hd Hinv Hall.
  assert (Hstep : forall a b, Graph.value_dep edges a b -> a ∈ nodes ->
            b ∈ nodes /\ Graph.emitted_before (Graph.emitted w) b a).
  { intros a b (e & He & <- & <- & Hk & Hp) Ha. split.
    - apply sort_nodes_elem.
      apply (find_dangling_None _ _ Hd);
        [by apply sort_edges_elem|by apply sort_nodes_elem].
    - eapply walk_order; try done.
      + unfold Graph.gates. by rewrite Hk.
      + intros Hf.
        apply (Graph.inv_forward _ _ _ Hinv) in Hf as (_ & Hb & _).
        unfold Graph.breakable in Hb. rewrite Hk in Hb. congruence. }
  induction 1 as [a b Hab|a b c Hab Hbc IH]; intros Ha; [by apply Hstep|].
  destruct (Hstep a b Hab Ha) as [Hb Hba].
  destruct (IH Hb) as [Hc Hcb]. split; [done|].
  by eapply emitted_before_trans.
Qed.

(** A value cycle makes the walk fatal. *)
Lemma value_cycle_fatal (nodes : list nat) (edges : list Graph.Edge)
    (x : nat) :
  (forall e, e ∈ edges -> Graph.e_from e ∈ nodes -> Graph.e_to e ∈ nodes) ->
  x ∈ nodes ->
  tc (Graph.value_dep edges) x x ->
  exists e,
    Graph.visit_all nodes edges
    = Some (Fatal (Graph.cycle_fault e)) /\
    e ∈ edges /\ Graph.gates e = true /\ Graph.breakable e = false /\
    rtc (Graph.gating_dep edges) (Graph.e_to e) (Graph.e_from e).
Proof.
  intros Hclosed Hx Hcycle.
  pose proof (visit_all_ok nodes edges) as Hpost.
  destruct (Graph.visit_all nodes edges) as [[w|err]|]; simpl in Hpost.
  - destruct Hpost as (Hd & Hinv & _ & Hall). exfalso.
    destruct (value_dep_order nodes edges w Hd Hinv Hall x x Hcycle Hx)
      as [_ Hlt].
    by eapply emitted_before_lt.
  - destruct Hpost as [(e & _ & He & Hf & Ht)|(_ & e & -> & He & Hg & Hb & Hr)].
    + exfalso. by apply Ht, Hclosed.
    + exists e. split_and!; try done.
      * by apply sort_edges_elem.
      * by apply gating_dep_sorted.
  - done.
Qed.

(** ** Cycles closed through a pointer member *)






(** *** Scenario C on any two nodes *)

























Example normalize_scenario_D :
  Layout.normalize 0 Layout.scenario_D
  = Ok {| Layout.statics := []; Layout.layout := Layout.scenario_D_layout |}.
Proof. vm_compute. reflexivity. Qed.

(** ** The layout normalizer *)

Section layout_facts.
Import Layout.
#[local] Open Scope nat_scope.

























End layout_facts.

(** ** Normalized layouts *)





Example pipeline_derived :
  Pipeline.pipeline Names.host_keywords 1000
    [Layout.scenario_derived; Layout.scenario_base]
    [Graph.inherits 9 8]
  = Some (Ok
      {| Pipeline.out_order :=
           [ {| Pipeline.em_index := 8; Pipeline.em_name := "FBase";
                Pipeline.em_statics := [];
                Pipeline.em_layout :=
                  [("Id", Layout.Field (Layout.plain_member "Id" 0 8))] |};
             {| Pipeline.em_index := 9; Pipeline.em_name := "FDerived";
                Pipeline.em_statics := [];
                Pipeline.em_layout :=
                  [("Pad_8", Layout.Padding 8 4);
                   ("Extra", Layout.Field (Layout.plain_member "Extra" 12 4));
                   ("Pad_16", Layout.Padding 16 8)] |} ];
         Pipeline.out_forward := [] |}).
Proof. vm_compute. reflexivity. Qed.

Example resolve_scenario_E :
  Names.resolve_all Names.host_keywords 1000 Names.empty_resolver
    Names.scenario_E
  = Ok (["Class"; "Class_0"], Names.scenario_E_resolver).
Proof. vm_compute. reflexivity. Qed.

(** ** The collision resolver *)

Section resolver_facts.
Import Names.
#[local] Open Scope nat_scope.
Variable reserved : Scope -> list string.
Variable suffix_bound : nat.

Lemma lookup_resolved_Some st rq n :
  lookup_resolved st rq = Some n -> (rq, n) ∈ resolved st.
Proof.
  unfold lookup_resolved. intros Hl.
  apply fmap_Some in Hl as ([rq' n'] & Hl & ->).
  apply fmap_Some in Hl as ([i p] & Hl & Hp). simpl in Hp. subst p.
  apply list_find_Some in Hl as (Hi & Heq & _). simpl in *. subst rq'.
  by eapply list_elem_of_lookup_2.
Qed.









Lemma lookup_resolved_fresh st rq :
  (forall n, (rq, n) ∉ resolved st) -> lookup_resolved st rq = None.
Proof.
  intros Hfresh. destruct (lookup_resolved st rq) as [n|] eqn:Hl; [|done].
  apply lookup_resolved_Some in Hl. by apply Hfresh in Hl.
Qed.

Lemma append_neq (s t : string) c : s +:+ String c t <> s.
Proof.
  induction s as [|a s IH]; simpl; [done|]. intros [= Heq]. by apply IH.
Qed.

Lemma candidate_neq name i : candidate name i <> name.
Proof. unfold candidate. apply append_neq. Qed.

(** Scenario E for any scope, name and configuration: when two entities
    propose the same name, and neither the name nor its first candidate is
    reserved, the first gets the name and the second the suffix [_0]. *)
Lemma resolve_same_name_twice sc name e1 e2 :
  e1 <> e2 -> name ∉ reserved sc -> candidate name 0 ∉ reserved sc ->
  0 < suffix_bound ->
  exists st,
    resolve_all reserved suffix_bound empty_resolver
      [ {| r_scope := sc; r_proposed := name; r_entity := e1 |};
        {| r_scope := sc; r_proposed := name; r_entity := e2 |} ]
    = Ok ([name; candidate name 0], st).
Proof.
  intros Hne Hname Hcand Hbound.
  set (rq1 := {| r_scope := sc; r_proposed := name; r_entity := e1 |}).
  set (rq2 := {| r_scope := sc; r_proposed := name; r_entity := e2 |}).
  set (st1 := record_name empty_resolver rq1 name).
  assert (H1 : resolve reserved suffix_bound empty_resolver rq1
               = Ok (name, st1)).
  { unfold resolve, taken. simpl. by rewrite bool_decide_eq_false_2. }
  assert (H2 : resolve reserved suffix_bound st1 rq2
               = Ok (candidate name 0,
                     record_name st1 rq2 (candidate name 0))).
  { unfold resolve. rewrite lookup_resolved_fresh.
    2:{ intros n [= Heq _]%list_elem_of_singleton. done. }
    assert (Ht : taken reserved st1 sc name = true).
    { unfold taken. rewrite bool_decide_eq_true_2; [done|]. simpl. by left. }
    simpl. rewrite Ht.
    destruct suffix_bound as [|b]; [lia|]. simpl. unfold taken. simpl.
    rewrite bool_decide_eq_false_2.
    2:{ intros [= Heq]%list_elem_of_singleton. by apply candidate_neq in Heq. }
    by rewrite bool_decide_eq_false_2. }
  eexists. simpl. rewrite H1. simpl. rewrite H2. simpl. done.
Qed.
End resolver_facts.



Example pipeline_XY :
  Pipeline.pipeline Names.host_keywords 1000
    [Pipeline.node_X; Pipeline.node_Y] Graph.scenario_C
  = Some (Ok
      {| Pipeline.out_order :=
           [ {| Pipeline.em_index := 1; Pipeline.em_name := "FY";
                Pipeline.em_statics := [];
                Pipeline.em_layout :=
                  [("Owner", Layout.Field (Layout.plain_member "Owner" 0 8))]
             |};
             {| Pipeline.em_index := 0; Pipeline.em_name := "FX";
                Pipeline.em_statics := [];
                Pipeline.em_layout :=
                  [("Inner", Layout.Field (Layout.plain_member "Inner" 0 8))]
             |} ];
         Pipeline.out_forward := [Graph.by_pointer 1 0] |}).
Proof. vm_compute. reflexivity. Qed.

(** ** Determinism *)

Lemma NoDup_fmap_eq {A B} (f : A -> B) (l : list A) (x y : A) :
  NoDup (f <$> l) -> x ∈ l -> y ∈ l -> f x = f y -> x = y.
Proof.
  induction l as [|a l IH]; intros Hnd Hx Hy Hf.
  { by apply elem_of_nil in Hx. }
  rewrite fmap_cons in Hnd. apply NoDup_cons in Hnd as [Ha Hnd].
  apply elem_of_cons in Hx as [->|Hx]; apply elem_of_cons in Hy as [->|Hy].
  - done.
  - exfalso. apply Ha. rewrite Hf. by apply list_elem_of_fmap_2.
  - exfalso. apply Ha. rewrite <- Hf. by apply list_elem_of_fmap_2.
  - by apply IH.
Qed.

Lemma find_node_Some nodes i n :
  Pipeline.find_node nodes i = Some n -> n ∈ nodes /\ Layout.n_index n = i.
Proof.
  unfold Pipeline.find_node. intros Hf.
  apply fmap_Some in Hf as ([k n'] & Hf & ->).
  apply list_find_Some in Hf as (Hk & Hi & _).
  split; [by eapply list_elem_of_lookup_2|done].
Qed.

Lemma find_node_perm nodes nodes' i :
  NoDup (Layout.n_index <$> nodes) -> nodes ≡ₚ nodes' ->
  Pipeline.find_node nodes i = Pipeline.find_node nodes' i.
Proof.
  intros Hnd Hp.
  destruct (Pipeline.find_node nodes i) as [n|] eqn:H1;
    destruct (Pipeline.find_node nodes' i) as [n'|] eqn:H2; try done.
  - apply find_node_Some in H1 as [H1 Hi], H2 as [H2 Hi'].
    f_equal. apply (NoDup_fmap_eq Layout.n_index nodes); try done.
    + by rewrite Hp.
    + congruence.
  - apply find_node_Some in H1 as [H1 Hi]. exfalso.
    unfold Pipeline.find_node in H2. apply fmap_None, list_find_None in H2.
    rewrite Forall_forall in H2. apply (H2 n); [by rewrite <- Hp|done].
  - apply find_node_Some in H2 as [H2 Hi]. exfalso.
    unfold Pipeline.find_node in H1. apply fmap_None, list_find_None in H1.
    rewrite Forall_forall in H1. apply (H1 n'); [by rewrite Hp|done].
Qed.

Lemma emit_node_ext reserved bound lookup1 lookup2 st i :
  (forall j, lookup1 j = lookup2 j) ->
  Pipeline.emit_node reserved bound lookup1 st i
  = Pipeline.emit_node reserved bound lookup2 st i.
Proof.
  intros Hext. unfold Pipeline.emit_node, Pipeline.super_start.
  rewrite Hext. destruct (lookup2 i) as [node|]; [|done].
  destruct (Layout.n_super node) as [s|]; [|done]. by rewrite Hext.
Qed.

Lemma emit_all_ext reserved bound lookup1 lookup2 order :
  (forall j, lookup1 j = lookup2 j) ->
  forall st,
    Pipeline.emit_all reserved bound lookup1 st order
    = Pipeline.emit_all reserved bound lookup2 st order.
Proof.
  intros Hext. induction order as [|i order IH]; intros st; simpl; [done|].
  rewrite (emit_node_ext _ _ _ _ _ _ Hext).
  destruct (Pipeline.emit_node _ _ lookup2 st i) as [[e st1]|]; simpl;
    [|done].
  by rewrite IH.
Qed.

(** The walk reads the node set and the edge set only after sorting them. *)
Lemma visit_all_perm nodes nodes' edges edges' :
  nodes ≡ₚ nodes' -> edges ≡ₚ edges' ->
  Graph.visit_all nodes edges = Graph.visit_all nodes' edges'.
Proof.
  intros Hn He. unfold Graph.visit_all.
  by rewrite (sort_nodes_perm _ _ Hn), (sort_edges_perm _ _ He).
Qed.

(** The pipeline always terminates with a result. *)
Lemma pipeline_is_Some reserved bound nodes edges :
  is_Some (Pipeline.pipeline reserved bound nodes edges).
Proof.
  unfold Pipeline.pipeline.
  pose proof (visit_all_ok (Layout.n_index <$> nodes) edges) as Hpost.
  by destruct (Graph.visit_all _ edges) as [[w|err]|].
Qed.

(** C6: the pipeline always returns a result, and its output (emission order,
    final identifiers, forward declarations) is the same for any two
    iteration orders of the node container and of the edge container holding
    the same nodes and edges: both are put in ascending index order before
    the walk, and nodes are looked up by their stable index. *)
Theorem C6_pipeline_deterministic (reserved : Scope -> list string)
    (suffix_bound : nat) (nodes nodes' : list Layout.Node)
    (edges edges' : list Graph.Edge) :
  NoDup (Layout.n_index <$> nodes) ->
  nodes ≡ₚ nodes' -> edges ≡ₚ edges' ->
  is_Some (Pipeline.pipeline reserved suffix_bound nodes edges) /\
  Pipeline.pipeline reserved suffix_bound nodes edges
  = Pipeline.pipeline reserved suffix_bound nodes' edges'.
Proof.
  intros Hnd Hn He. split; [apply pipeline_is_Some|].
  unfold Pipeline.pipeline.
  rewrite (visit_all_perm (Layout.n_index <$> nodes)
             (Layout.n_index <$> nodes') edges edges')
    by (by rewrite ?Hn).
  destruct (Graph.visit_all _ edges') as [[w|err]|]; try done.
  by rewrite (emit_all_ext _ _ (Pipeline.find_node nodes)
                (Pipeline.find_node nodes'))
    by (intros j; by apply find_node_perm).
Qed.

Lemma C6_pipeline_deterministic_witness :
  NoDup (Layout.n_index <$> [Pipeline.node_X; Pipeline.node_Y]) /\
  [Pipeline.node_X; Pipeline.node_Y] ≡ₚ [Pipeline.node_Y; Pipeline.node_X] /\
  Graph.scenario_C ≡ₚ [Graph.by_pointer 1 0; Graph.by_value 0 1] /\
  is_Some (Pipeline.pipeline Names.host_keywords 1000
             [Pipeline.node_X; Pipeline.node_Y] Graph.scenario_C) /\
  Pipeline.pipeline Names.host_keywords 1000
    [Pipeline.node_X; Pipeline.node_Y] Graph.scenario_C
  = Pipeline.pipeline Names.host_keywords 1000
      [Pipeline.node_Y; Pipeline.node_X]
      [Graph.by_pointer 1 0; Graph.by_value 0 1].
Proof.
  assert (Hnd : NoDup (Layout.n_index <$> [Pipeline.node_X; Pipeline.node_Y]))
    by (apply (bool_decide_unpack _); vm_compute; exact I).
  assert (Hn : [Pipeline.node_X; Pipeline.node_Y]
               ≡ₚ [Pipeline.node_Y; Pipeline.node_X]) by apply perm_swap.
  assert (He : Graph.scenario_C
               ≡ₚ [Graph.by_pointer 1 0; Graph.by_value 0 1])
    by apply perm_swap.
  split; [exact Hnd|]. split; [exact Hn|]. split; [exact He|].
  apply (C6_pipeline_deterministic Names.host_keywords 1000 _ _ _ _
           Hnd Hn He).
Defined.

(** ** The pipeline and the walk *)

(** The pipeline emits the nodes in the order of the walk and hands over the
    walk's forward declarations. *)
Lemma emit_all_order reserved bound lookup order :
  forall st out,
    Pipeline.emit_all reserved bound lookup st order = Ok out ->
    Pipeline.em_index <$> out = order.
Proof.
  induction order as [|i order IH]; intros st out; simpl.
  { by intros [= <-]. }
  destruct (Pipeline.emit_node reserved bound lookup st i) as [[e st1]|]
    eqn:He; simpl; [|done].
  destruct (Pipeline.emit_all reserved bound lookup st1 order) as [es|]
    eqn:Hes; simpl; [|done].
  intros [= <-]. rewrite fmap_cons, (IH _ _ Hes). f_equal.
  unfold Pipeline.emit_node in He.
  destruct (lookup i) as [node|]; [|done].
  destruct (Pipeline.super_start lookup node) as [start|]; simpl in He;
    [|done].
  destruct (Layout.normalize start node) as [nl|]; simpl in He; [|done].
  destruct (Names.resolve _ _ _ _) as [[tname st']|]; simpl in He; [|done].
  destruct (Names.resolve_all _ _ _ _) as [[names st'']|]; simpl in He;
    [|done].
  by injection He as <- _.
Qed.

Lemma pipeline_order reserved bound nodes edges out :
  Pipeline.pipeline reserved bound nodes edges = Some (Ok out) ->
  exists w,
    Graph.visit_all (Layout.n_index <$> nodes) edges = Some (Ok w) /\
    Pipeline.em_index <$> Pipeline.out_order out = Graph.emitted w /\
    Pipeline.out_forward out = Graph.forward_declared w.
Proof.
  unfold Pipeline.pipeline.
  destruct (Graph.visit_all _ edges) as [[w|err]|]; try done.
  destruct (Pipeline.emit_all _ _ _ _ _) as [es|] eqn:Hes; simpl; [|done].
  intros [= <-]. exists w. split_and!; try done.
  by eapply emit_all_order.
Qed.

(** C3: when the node set has no dangling reference and contains a cycle
    made only of by-value member edges, neither the walk nor the pipeline
    produces an order: both report [UnresolvableCycle] naming the two nodes
    of an edge of the input that cannot be reclassified and lies on a
    cycle. *)
Theorem C3_value_cycle_fatal (reserved : Scope -> list string)
    (suffix_bound : nat) (nodes : list Layout.Node)
    (edges : list Graph.Edge) (x : nat) :
  (forall e, e ∈ edges -> Graph.e_from e ∈ Layout.n_index <$> nodes ->
     Graph.e_to e ∈ Layout.n_index <$> nodes) ->
  x ∈ Layout.n_index <$> nodes ->
  tc (Graph.value_dep edges) x x ->
  exists e,
    Graph.visit_all (Layout.n_index <$> nodes) edges
    = Some (Fatal (Graph.cycle_fault e)) /\
    Pipeline.pipeline reserved suffix_bound nodes edges
    = Some (Fatal (Graph.cycle_fault e)) /\
    e ∈ edges /\ Graph.gates e = true /\ Graph.breakable e = false /\
    rtc (Graph.gating_dep edges) (Graph.e_to e) (Graph.e_from e).
Proof.
  intros Hclosed Hx Hcycle.
  destruct (value_cycle_fatal _ _ _ Hclosed Hx Hcycle)
    as (e & Hw & He & Hg & Hb & Hr).
  exists e. split_and!; try done.
  unfold Pipeline.pipeline. by rewrite Hw.
Qed.

Lemma C3_value_cycle_witness :
  (0%nat ∈ Layout.n_index <$> [Pipeline.node_X; Pipeline.node_Y]) /\
  tc (Graph.value_dep Graph.scenario_B) 0%nat 0%nat /\
  exists e,
    Graph.visit_all (Layout.n_index <$> [Pipeline.node_X; Pipeline.node_Y])
      Graph.scenario_B
    = Some (Fatal (Graph.cycle_fault e)) /\
    Pipeline.pipeline Names.host_keywords 1000
      [Pipeline.node_X; Pipeline.node_Y] Graph.scenario_B
    = Some (Fatal (Graph.cycle_fault e)) /\
    e ∈ Graph.scenario_B /\ Graph.gates e = true /\
    Graph.breakable e = false /\
    rtc (Graph.gating_dep Graph.scenario_B) (Graph.e_to e) (Graph.e_from e).
Proof.
  assert (Hx : 0%nat ∈ Layout.n_index <$> [Pipeline.node_X; Pipeline.node_Y])
    by (simpl; left).
  assert (Hc : tc (Graph.value_dep Graph.scenario_B) 0%nat 0%nat).
  { apply tc_l with 1%nat; [|apply tc_once].
    - exists (Graph.by_value 0 1). split_and!; try done. by left.
    - exists (Graph.by_value 1 0). split_and!; try done. right. by left. }
  split_and!; [exact Hx|exact Hc|].
  apply (C3_value_cycle_fatal Names.host_keywords 1000
           [Pipeline.node_X; Pipeline.node_Y] Graph.scenario_B 0%nat);
    [|exact Hx|exact Hc].
  intros e He _. unfold Graph.scenario_B in He.
  repeat (apply elem_of_cons in He as [->|He]; [simpl; repeat constructor|]).
  by apply elem_of_nil in He.
Defined.

Example pipeline_scenario_B :
  Pipeline.pipeline Names.host_keywords 1000
    [Pipeline.node_X; Pipeline.node_Y] Graph.scenario_B
  = Some (Fatal (UnresolvableCycle 1 0 MemberValue)).
Proof. vm_compute. reflexivity. Qed.


(** * Further properties of the source *)

(** ** Lexicographic order on names *)

Lemma lex_lt_irrefl a : ~ Members.lex_lt a a.
Proof.
  induction a as [|c a IH]; inversion 1; subst; [lia|by apply IH].
Qed.

Lemma lex_lt_trans a b c :
  Members.lex_lt a b -> Members.lex_lt b c -> Members.lex_lt a c.
Proof.
  intros Hab. revert c. induction Hab as [x s|x y s t Hxy|x s t Hst IH];
    intros c Hbc; inversion Hbc; subst.
  - constructor.
  - constructor.
  - constructor. lia.
  - by constructor.
  - by constructor.
  - apply Members.lex_lt_tail. by apply IH.
Qed.

Lemma N_of_ascii_inj c1 c2 :
  Ascii.N_of_ascii c1 = Ascii.N_of_ascii c2 -> c1 = c2.
Proof.
  intros H. rewrite <- (Ascii.ascii_N_embedding c1),
    <- (Ascii.ascii_N_embedding c2). by rewrite H.
Qed.

Lemma lex_lt_trichotomy a b :
  a = b \/ Members.lex_lt a b \/ Members.lex_lt b a.
Proof.
  revert b. induction a as [|c1 a IH]; intros [|c2 b].
  - by left.
  - right; left. constructor.
  - right; right. constructor.
  - destruct (N.lt_trichotomy (Ascii.N_of_ascii c1) (Ascii.N_of_ascii c2))
      as [Hlt|[Heq|Hgt]].
    + right; left. by constructor.
    + apply N_of_ascii_inj in Heq as ->.
      destruct (IH b) as [->|[Hl|Hr]].
      * by left.
      * right; left. by constructor.
      * right; right. by constructor.
    + right; right. by constructor.
Qed.

(** ** Comparators with a flag rank and a second key *)

(** A comparator that decides "smaller rank, or equal rank and smaller second
    key" is a strict weak ordering as soon as the second key is one among
    elements of equal rank. *)
Lemma ranked_strict_weak_order {A} (cmp : A -> A -> bool) (rank : A -> Z)
    (lt : A -> A -> Prop) :
  (forall a b, cmp a b = true <->
               rank a < rank b \/ (rank a = rank b /\ lt a b)) ->
  (forall a, ~ lt a a) ->
  (forall a b c, rank a = rank b -> rank b = rank c ->
                 lt a b -> lt b c -> lt a c) ->
  (forall a b c, rank a = rank b -> rank b = rank c ->
                 ~ lt a b -> ~ lt b a -> ~ lt b c -> ~ lt c b ->
                 ~ lt a c /\ ~ lt c a) ->
  Functions.strict_weak_order cmp.
Proof.
  intros Hspec Hirr Htrans Hequiv.
  assert (Hfalse : forall a b, cmp a b = false <->
            ~ (rank a < rank b \/ (rank a = rank b /\ lt a b))).
  { intros a b. rewrite <- Hspec. by destruct (cmp a b). }
  split_and!.
  - intros a. apply Hfalse. intros [?|[_ ?]]; [lia|by eapply Hirr].
  - intros a b c [Hab|[Hab Hlab]]%Hspec [Hbc|[Hbc Hlbc]]%Hspec; apply Hspec.
    + left. lia.
    + left. lia.
    + left. lia.
    + right. split; [lia|]. by eapply Htrans.
  - intros a b c [Hab Hba] [Hbc Hcb].
    apply Hfalse in Hab, Hba, Hbc, Hcb.
    assert (Hr1 : rank a = rank b) by lia.
    assert (Hr2 : rank b = rank c) by lia.
    assert (Hn1 : ~ lt a b) by (intros ?; apply Hab; right; by split).
    assert (Hn2 : ~ lt b a) by (intros ?; apply Hba; right; by split).
    assert (Hn3 : ~ lt b c) by (intros ?; apply Hbc; right; by split).
    assert (Hn4 : ~ lt c b) by (intros ?; apply Hcb; right; by split).
    destruct (Hequiv a b c Hr1 Hr2 Hn1 Hn2 Hn3 Hn4) as [Hac Hca].
    unfold Members.incomparable.
    split; apply Hfalse; intros [?|[_ ?]]; try lia; tauto.
Qed.

Lemma string_lt_spec a b :
  Members.string_lt a b = true <-> Members.lex_lt a b.
Proof. apply string_lt_lex. Qed.

Lemma ComparePredefinedFunctions_rank L R :
  Functions.ComparePredefinedFunctions L R = true <->
  Functions.predefined_rank L < Functions.predefined_rank R \/
  (Functions.predefined_rank L = Functions.predefined_rank R /\
   Members.lex_lt (Functions.NameWithParams L) (Functions.NameWithParams R)).
Proof.
  unfold Functions.ComparePredefinedFunctions, Functions.predefined_rank,
    Functions.bool_ne, Functions.bool_lt, Members.bool_gt.
  destruct (Functions.bIsBodyInline L), (Functions.bIsBodyInline R),
    (Functions.bIsStatic L), (Functions.bIsStatic R),
    (Functions.bIsConst L), (Functions.bIsConst R); simpl;
    rewrite ?string_lt_spec; intuition (try done; try lia).
Qed.

Lemma CompareUnrealFunctions_rank L R :
  Functions.CompareUnrealFunctions L R = true <->
  Functions.unreal_rank L < Functions.unreal_rank R \/
  (Functions.unreal_rank L = Functions.unreal_rank R /\
   Functions.GetIndex L < Functions.GetIndex R).
Proof.
  unfold Functions.CompareUnrealFunctions, Functions.unreal_rank,
    Functions.bool_ne, Functions.bool_lt, Members.bool_gt.
  destruct (Functions.HasFlags_Static L), (Functions.HasFlags_Static R),
    (Functions.HasFlags_Const L), (Functions.HasFlags_Const R); simpl;
    rewrite ?Z.ltb_lt; intuition (try done; try lia).
Qed.

Lemma ComparePredefinedMembers_rank L R :
  Members.ComparePredefinedMembers L R = true <->
  Functions.member_rank L < Functions.member_rank R \/
  (Functions.member_rank L = Functions.member_rank R /\
   Functions.member_key_lt L R).
Proof.
  rewrite ComparePredefinedMembers_spec.
  unfold Members.sorted_before, Functions.member_rank,
    Functions.member_key_lt.
  destruct (Members.bIsStatic L), (Members.bIsStatic R); simpl;
    intuition (try done; try lia).
Qed.

(** X1: [ComparePredefinedMembers] is a strict weak ordering, as its
    documentation states: irreflexive, transitive, and "neither is less" is
    transitive. *)
Theorem X1_ComparePredefinedMembers_strict_weak :
  Functions.strict_weak_order Members.ComparePredefinedMembers.
Proof.
  assert (Hname : forall x y : string,
            ~ Members.lex_lt x y -> ~ Members.lex_lt y x -> x = y).
  { intros x y ? ?. by destruct (lex_lt_trichotomy x y) as [?|[?|?]]. }
  apply (ranked_strict_weak_order _ Functions.member_rank
           Functions.member_key_lt).
  - apply ComparePredefinedMembers_rank.
  - intros a [[_ H]|[_ H]]; [by apply lex_lt_irrefl in H|lia].
  - unfold Functions.member_rank, Functions.member_key_lt.
    intros a b c Hab Hbc [[Ha H1]|[Ha H1]] [[Hb H2]|[Hb H2]];
      rewrite ?Ha, ?Hb in Hab; simpl in Hab; try lia.
    + left. split; [done|]. by eapply lex_lt_trans.
    + right. split; [done|]. lia.
  - unfold Functions.member_rank, Functions.member_key_lt.
    intros a b c Hab Hbc Hn1 Hn2 Hn3 Hn4.
    destruct (Members.bIsStatic a) eqn:Ha, (Members.bIsStatic b) eqn:Hb,
      (Members.bIsStatic c) eqn:Hc; simpl in Hab, Hbc; try lia.
    + assert (Members.Name a = Members.Name b) as ->.
      { apply Hname; intros ?; [apply Hn1|apply Hn2]; by left. }
      assert (Members.Name b = Members.Name c) as ->.
      { apply Hname; intros ?; [apply Hn3|apply Hn4]; by left. }
      split; intros [[_ H]|[? _]]; try done; by apply lex_lt_irrefl in H.
Qed.

(** X2: [CompareUnrealFunctions] is a strict weak ordering, and it leaves no
    two functions with different object indices unordered. *)
Theorem X2_CompareUnrealFunctions_strict_weak :
  Functions.strict_weak_order Functions.CompareUnrealFunctions /\
  (forall L R,
     Functions.CompareUnrealFunctions L R = true \/
     Functions.CompareUnrealFunctions R L = true \/
     Functions.GetIndex L = Functions.GetIndex R).
Proof.
  split.
  - apply (ranked_strict_weak_order _ Functions.unreal_rank
             (fun L R => Functions.GetIndex L < Functions.GetIndex R)).
    + apply CompareUnrealFunctions_rank.
    + intros a. lia.
    + intros a b c _ _. lia.
    + intros a b c _ _. lia.
  - intros L R. rewrite !CompareUnrealFunctions_rank. lia.
Qed.

(** X3: [ComparePredefinedFunctions] is a strict weak ordering, and it leaves
    no two functions with different signatures unordered. *)
Theorem X3_ComparePredefinedFunctions_strict_weak :
  Functions.strict_weak_order Functions.ComparePredefinedFunctions /\
  (forall L R,
     Functions.ComparePredefinedFunctions L R = true \/
     Functions.ComparePredefinedFunctions R L = true \/
     Functions.NameWithParams L = Functions.NameWithParams R).
Proof.
  assert (Hname : forall x y : string,
            ~ Members.lex_lt x y -> ~ Members.lex_lt y x -> x = y).
  { intros x y ? ?. by destruct (lex_lt_trichotomy x y) as [?|[?|?]]. }
  split.
  - apply (ranked_strict_weak_order _ Functions.predefined_rank
             (fun L R => Members.lex_lt (Functions.NameWithParams L)
                           (Functions.NameWithParams R))).
    + apply ComparePredefinedFunctions_rank.
    + intros a. apply lex_lt_irrefl.
    + intros a b c _ _. apply lex_lt_trans.
    + intros a b c _ _ Hn1 Hn2 Hn3 Hn4.
      rewrite (Hname _ _ Hn1 Hn2), (Hname _ _ Hn3 Hn4).
      split; apply lex_lt_irrefl.
  - intros L R. rewrite !ComparePredefinedFunctions_rank.
    destruct (lex_lt_trichotomy (Functions.NameWithParams L)
                (Functions.NameWithParams R)) as [?|[?|?]];
      [by right; right| |];
      destruct (Z.lt_trichotomy (Functions.predefined_rank L)
                  (Functions.predefined_rank R)) as [?|[?|?]];
      intuition lia.
Qed.

(** X4: [ComparePredefinedFunctions] emits the four groups in the order
    static non-inline, non-inline, static inline, inline: a function of an
    earlier group is less than every function of a later group, whatever
    their constness and names. *)
Theorem X4_function_groups (L R : Functions.PredefinedFunction) :
  Functions.function_group L < Functions.function_group R ->
  Functions.ComparePredefinedFunctions L R = true /\
  Functions.ComparePredefinedFunctions R L = false.
Proof.
  intros Hg. split.
  - apply ComparePredefinedFunctions_rank. left.
    unfold Functions.function_group, Functions.predefined_rank in *.
    destruct (Functions.bIsBodyInline L), (Functions.bIsBodyInline R),
      (Functions.bIsStatic L), (Functions.bIsStatic R),
      (Functions.bIsConst L), (Functions.bIsConst R); simpl in *; lia.
  - apply not_true_iff_false. rewrite ComparePredefinedFunctions_rank.
    unfold Functions.function_group, Functions.predefined_rank in *.
    destruct (Functions.bIsBodyInline L), (Functions.bIsBodyInline R),
      (Functions.bIsStatic L), (Functions.bIsStatic R),
      (Functions.bIsConst L), (Functions.bIsConst R); simpl in *; lia.
Qed.

Lemma X4_function_groups_witness :
  Functions.function_group (Functions.mk_function "Zeta() const" false true
                              false)
  < Functions.function_group (Functions.mk_function "Alpha()" true false
                                true) /\
  Functions.ComparePredefinedFunctions
    (Functions.mk_function "Zeta() const" false true false)
    (Functions.mk_function "Alpha()" true false true) = true /\
  Functions.ComparePredefinedFunctions
    (Functions.mk_function "Alpha()" true false true)
    (Functions.mk_function "Zeta() const" false true false) = false.
Proof.
  assert (Hg : Functions.function_group
                 (Functions.mk_function "Zeta() const" false true false)
               < Functions.function_group
                   (Functions.mk_function "Alpha()" true false true))
    by (vm_compute; reflexivity).
  split; [exact Hg|].
  apply (X4_function_groups _ _ Hg).
Defined.

(** X5: on properties among which no bool property shares its offset with a
    property that is not a bool property, "neither is less" under
    [CompareUnrealProperties] is transitive, so there the comparator is the
    strict weak ordering its comment requires. *)
Theorem X5_CompareUnrealProperties_same_kind (P Q R : Members.UEProperty) :
  Functions.same_kind_at_offset P Q ->
  Functions.same_kind_at_offset Q R ->
  Members.incomparable Members.CompareUnrealProperties P Q ->
  Members.incomparable Members.CompareUnrealProperties Q R ->
  Members.incomparable Members.CompareUnrealProperties P R.
Proof.
  unfold Functions.same_kind_at_offset, Members.incomparable.
  intros HPQ HQR [H1 H2] [H3 H4].
  apply not_true_iff_false in H1, H2, H3, H4.
  rewrite CompareUnrealProperties_spec in H1, H2, H3, H4.
  unfold Members.property_before in *.
  assert (Ho1 : Members.GetOffset P = Members.GetOffset Q) by lia.
  assert (Ho2 : Members.GetOffset Q = Members.GetOffset R) by lia.
  specialize (HPQ Ho1). specialize (HQR Ho2).
  split; apply not_true_iff_false; rewrite CompareUnrealProperties_spec;
    unfold Members.property_before;
    destruct (Members.IsA_BoolProperty P), (Members.IsA_BoolProperty Q),
      (Members.IsA_BoolProperty R); try done; intuition lia.
Qed.

Lemma X5_same_kind_witness :
  Functions.same_kind_at_offset Members.other_at_0 Functions.int_at_0 /\
  Functions.same_kind_at_offset Functions.int_at_0 Functions.float_at_0 /\
  Members.incomparable Members.CompareUnrealProperties
    Members.other_at_0 Functions.int_at_0 /\
  Members.incomparable Members.CompareUnrealProperties
    Functions.int_at_0 Functions.float_at_0 /\
  Members.incomparable Members.CompareUnrealProperties
    Members.other_at_0 Functions.float_at_0.
Proof.
  assert (H1 : Functions.same_kind_at_offset Members.other_at_0
                 Functions.int_at_0) by (intros _; reflexivity).
  assert (H2 : Functions.same_kind_at_offset Functions.int_at_0
                 Functions.float_at_0) by (intros _; reflexivity).
  assert (H3 : Members.incomparable Members.CompareUnrealProperties
                 Members.other_at_0 Functions.int_at_0)
    by (split; reflexivity).
  assert (H4 : Members.incomparable Members.CompareUnrealProperties
                 Functions.int_at_0 Functions.float_at_0)
    by (split; reflexivity).
  split; [exact H1|]. split; [exact H2|]. split; [exact H3|].
  split; [exact H4|].
  apply (X5_CompareUnrealProperties_same_kind _ _ _ H1 H2 H3 H4).
Defined.

(** ** The XOR obfuscation *)

Ltac bitwise n Hn :=
  cbv zeta; apply Z.bits_inj'; intros n Hn;
  repeat first [rewrite uint8_wrap_testbit by done | rewrite Z.lxor_spec].

Ltac split_bits n :=
  repeat match goal with
         | |- context [Z.testbit ?x n] => destruct (Z.testbit x n)
         end.

(** Both loops XOR the source byte with one keystream byte. *)
Lemma xor_byte_keystream (K : ML.EncryptionKey) (Src : list Z) (i : nat) :
  ML.xor_byte K Src i
  = uint8_wrap (Z.lxor (ML.at_index Src i) (Cipher.keystream K i)).
Proof.
  unfold ML.xor_byte, Cipher.keystream. bitwise n Hn.
  destruct (n <? 8); cbn [andb]; [|done]. by split_bits n.
Qed.

Lemma Decrypt_lookup (E : ML.EncryptedModelData) (K : ML.EncryptionKey)
    (i : nat) :
  (i < length (ML.EncryptedData E))%nat ->
  (i < Z.to_nat (ML.OriginalSize E))%nat ->
  ML.Decrypt E K !! i = Some (ML.xor_byte K (ML.EncryptedData E) i).
Proof.
  intros H1 H2. unfold ML.Decrypt.
  apply xor_loop_lookup; rewrite length_replicate; lia.
Qed.

Lemma at_index_lookup (l : list Z) (i : nat) (x : Z) :
  l !! i = Some x -> ML.at_index l i = x.
Proof. unfold ML.at_index. by intros ->. Qed.

Lemma uint8_wrap_small (d : Z) : is_uint8 d -> uint8_wrap d = d.
Proof. intros Hd. unfold uint8_wrap. by apply Z.mod_small. Qed.

Lemma LoadModel_verified (this : ML.EncryptedModelRuntime)
    (Model : ML.EncryptedModelData) (K : ML.EncryptionKey) :
  ML.VerifyModel Model = true ->
  ML.LoadModel this Model K
  = (true, Cipher.loaded_runtime Model K (ML.Decrypt Model K)).
Proof.
  intros HV. unfold ML.LoadModel. rewrite HV. simpl.
  apply VerifyModel_spec in HV as (Hpos & _).
  by rewrite decrypted_size_check.
Qed.

Lemma VerifyModel_Encrypt (Data : list Z) (K : ML.EncryptionKey) :
  ML.VerifyModel (ML.Encrypt Data K) = true <->
  (0 < length Data)%nat /\ Z.of_nat (length Data) < 2 ^ 32.
Proof.
  rewrite VerifyModel_spec, Encrypt_data_length.
  unfold ML.Encrypt.
  cbn [ML.OriginalSize ML.EncryptedSize ML.EncryptedData].
  rewrite xor_loop_length, length_replicate. unfold uint32_wrap.
  pose proof (Z.mod_pos_bound (Z.of_nat (length Data)) (2 ^ 32)
                ltac:(lia)) as Hb.
  split.
  - intros (H1 & _ & H2). rewrite H2 in Hb. lia.
  - intros [H1 H2]. rewrite Z.mod_small by lia. lia.
Qed.

(** X6: the container built by [Encrypt] passes [Security::VerifyModel]
    exactly when the data is not empty and shorter than [2^32] bytes; the
    encryption of an empty model is rejected. *)
Theorem X6_VerifyModel_Encrypt (Data : list Z) (K : ML.EncryptionKey) :
  ML.VerifyModel (ML.Encrypt Data K)
  = bool_decide ((0 < length Data)%nat /\ Z.of_nat (length Data) < 2 ^ 32).
Proof.
  destruct (ML.VerifyModel (ML.Encrypt Data K)) eqn:HV; symmetry.
  - apply bool_decide_eq_true. by apply VerifyModel_Encrypt in HV.
  - apply bool_decide_eq_false. intros H.
    apply (proj2 (VerifyModel_Encrypt Data K)) in H. congruence.
Qed.

(** X7: a runtime in any state that loads the encryption of a non-empty byte
    vector of fewer than [2^32] bytes with the key it was encrypted with
    reports success, is loaded, and holds exactly the original bytes. *)
Theorem X7_LoadModel_Encrypt (this : ML.EncryptedModelRuntime)
    (Data : list Z) (K : ML.EncryptionKey) :
  is_bytes Data ->
  (0 < length Data)%nat ->
  Z.of_nat (length Data) < 2 ^ 32 ->
  ML.LoadModel this (ML.Encrypt Data K) K
  = (true, Cipher.loaded_runtime (ML.Encrypt Data K) K Data).
Proof.
  intros Hb Hpos Hlen.
  rewrite LoadModel_verified by (by apply VerifyModel_Encrypt).
  by rewrite Decrypt_Encrypt_small.
Qed.

Lemma X7_LoadModel_Encrypt_witness :
  is_bytes [1; 2; 3; 4; 5] /\
  ML.LoadModel ML.EncryptedModelRuntime_new
    (ML.Encrypt [1; 2; 3; 4; 5] ML.GenerateKey) ML.GenerateKey
  = (true,
     Cipher.loaded_runtime (ML.Encrypt [1; 2; 3; 4; 5] ML.GenerateKey)
       ML.GenerateKey [1; 2; 3; 4; 5]).
Proof.
  assert (Hb : is_bytes [1; 2; 3; 4; 5])
    by (repeat constructor; unfold is_uint8; lia).
  split; [exact Hb|].
  apply (X7_LoadModel_Encrypt ML.EncryptedModelRuntime_new [1; 2; 3; 4; 5]
           ML.GenerateKey Hb); simpl; lia.
Defined.

(** X8: decrypting with another key is not detected and returns, at every
    index, the original byte XOR-ed with the difference of the two
    keystreams. *)
Theorem X8_Decrypt_other_key (Data : list Z) (K K' : ML.EncryptionKey)
    (i : nat) (d : Z) :
  Z.of_nat (length Data) < 2 ^ 32 ->
  Data !! i = Some d ->
  ML.Decrypt (ML.Encrypt Data K) K' !! i
  = Some (uint8_wrap
            (Z.lxor d (Z.lxor (Cipher.keystream K i)
                         (Cipher.keystream K' i)))).
Proof.
  intros Hlen Hd.
  assert (Hi : (i < length Data)%nat) by (by eapply lookup_lt_Some).
  rewrite Decrypt_lookup.
  - f_equal. rewrite xor_byte_keystream.
    rewrite (at_index_lookup _ _ _ (Encrypt_data_lookup K Data i Hi)).
    rewrite xor_byte_keystream, (at_index_lookup _ _ _ Hd).
    unfold Cipher.keystream. bitwise n Hn.
    destruct (n <? 8); cbn [andb]; [|done]. by split_bits n.
  - by rewrite Encrypt_data_length.
  - rewrite Encrypt_OriginalSize. unfold uint32_wrap.
    rewrite Z.mod_small by lia. lia.
Qed.

Lemma X8_other_key_witness :
  Z.of_nat (length [1; 2; 3; 4; 5]) < 2 ^ 32 /\
  ML.Decrypt (ML.Encrypt [1; 2; 3; 4; 5] ML.GenerateKey)
    ML.EncryptionKey_new !! 2%nat
  = Some (uint8_wrap
            (Z.lxor 3 (Z.lxor (Cipher.keystream ML.GenerateKey 2)
                         (Cipher.keystream ML.EncryptionKey_new 2)))).
Proof.
  assert (Hl : Z.of_nat (length [1; 2; 3; 4; 5]) < 2 ^ 32) by (simpl; lia).
  split; [exact Hl|].
  apply (X8_Decrypt_other_key [1; 2; 3; 4; 5] ML.GenerateKey
           ML.EncryptionKey_new 2 3 Hl).
  reflexivity.
Defined.

Lemma keystream_weak (K : ML.EncryptionKey) (i : nat) :
  length (ML.IV K) = ML.IV_SIZE ->
  ML.Key K = ML.IV K ++ ML.IV K ->
  Cipher.keystream K i = 0.
Proof.
  unfold Cipher.keystream, ML.IV_SIZE, ML.KEY_SIZE. intros Hlen HK.
  assert (Hm : (i mod 32 = i mod 16 + 16 * ((i / 16) mod 2))%nat)
    by apply (Nat.Div0.mod_mul_r i 16 2).
  assert (H16 : (i mod 16 < 16)%nat) by (apply Nat.mod_upper_bound; lia).
  assert (H2 : ((i / 16) mod 2 < 2)%nat) by (apply Nat.mod_upper_bound; lia).
  assert (Hk : ML.at_index (ML.Key K) (i mod 32)
               = ML.at_index (ML.IV K) (i mod 16)).
  { unfold ML.at_index. rewrite HK. f_equal.
    destruct (decide ((i / 16) mod 2 = 0)%nat) as [H0|H0].
    - rewrite lookup_app_l by lia. f_equal. lia.
    - rewrite lookup_app_r by lia. f_equal. lia. }
  rewrite Hk, Z.lxor_nilpotent. done.
Qed.

(** X9: a key whose 32 key bytes are its 16 IV bytes written twice does not
    obfuscate at all: the encrypted bytes are the data.  The
    default-constructed key is one of them. *)
Theorem X9_weak_keys (Data : list Z) (K : ML.EncryptionKey) :
  length (ML.IV K) = ML.IV_SIZE ->
  ML.Key K = ML.IV K ++ ML.IV K ->
  is_bytes Data ->
  ML.EncryptedData (ML.Encrypt Data K) = Data.
Proof.
  intros Hlen HK Hb. apply list_eq. intros i.
  destruct (decide (i < length Data)%nat) as [Hi|Hi].
  - rewrite Encrypt_data_lookup by done.
    destruct (lookup_lt_is_Some_2 Data i Hi) as [d Hd]. rewrite Hd. f_equal.
    rewrite xor_byte_keystream, keystream_weak by done.
    rewrite (at_index_lookup _ _ _ Hd), Z.lxor_0_r.
    apply uint8_wrap_small. by eapply Forall_lookup_1.
  - rewrite (lookup_ge_None_2 Data) by lia.
    apply lookup_ge_None_2. rewrite Encrypt_data_length. lia.
Qed.

Lemma X9_weak_keys_witness :
  is_bytes [1; 2; 3; 4; 5] /\
  ML.Key ML.EncryptionKey_new
  = ML.IV ML.EncryptionKey_new ++ ML.IV ML.EncryptionKey_new /\
  ML.EncryptedData (ML.Encrypt [1; 2; 3; 4; 5] ML.EncryptionKey_new)
  = [1; 2; 3; 4; 5].
Proof.
  assert (Hb : is_bytes [1; 2; 3; 4; 5])
    by (repeat constructor; unfold is_uint8; lia).
  assert (HK : ML.Key ML.EncryptionKey_new
               = ML.IV ML.EncryptionKey_new ++ ML.IV ML.EncryptionKey_new)
    by reflexivity.
  split; [exact Hb|]. split; [exact HK|].
  apply (X9_weak_keys [1; 2; 3; 4; 5] ML.EncryptionKey_new eq_refl HK Hb).
Defined.

(** X10: two vectors encrypted with the same key leak the XOR of their
    bytes: at every index the XOR of the two encrypted bytes is the XOR of
    the two data bytes, whatever the key. *)
Theorem X10_same_key_xor (D1 D2 : list Z) (K : ML.EncryptionKey) (i : nat)
    (d1 d2 c1 c2 : Z) :
  is_uint8 d1 -> is_uint8 d2 ->
  D1 !! i = Some d1 -> D2 !! i = Some d2 ->
  ML.EncryptedData (ML.Encrypt D1 K) !! i = Some c1 ->
  ML.EncryptedData (ML.Encrypt D2 K) !! i = Some c2 ->
  Z.lxor c1 c2 = Z.lxor d1 d2.
Proof.
  intros Hb1 Hb2 Hd1 Hd2 Hc1 Hc2.
  rewrite Encrypt_data_lookup in Hc1 by (by eapply lookup_lt_Some).
  rewrite Encrypt_data_lookup in Hc2 by (by eapply lookup_lt_Some).
  injection Hc1 as <-. injection Hc2 as <-.
  rewrite !xor_byte_keystream.
  rewrite (at_index_lookup _ _ _ Hd1), (at_index_lookup _ _ _ Hd2).
  rewrite <- (uint8_wrap_small d1 Hb1) at 2.
  rewrite <- (uint8_wrap_small d2 Hb2) at 2.
  bitwise n Hn. destruct (n <? 8); cbn [andb]; [|done]. by split_bits n.
Qed.

Lemma X10_same_key_xor_witness :
  is_uint8 1 /\ is_uint8 9 /\
  ML.EncryptedData (ML.Encrypt [1; 2; 3] ML.GenerateKey) !! 0%nat
  = Some 123 /\
  ML.EncryptedData (ML.Encrypt [9; 8; 7] ML.GenerateKey) !! 0%nat
  = Some 115 /\
  Z.lxor 123 115 = Z.lxor 1 9.
Proof.
  assert (H1 : is_uint8 1) by (unfold is_uint8; lia).
  assert (H9 : is_uint8 9) by (unfold is_uint8; lia).
  assert (Hc1 : ML.EncryptedData (ML.Encrypt [1; 2; 3] ML.GenerateKey)
                !! 0%nat = Some 123) by reflexivity.
  assert (Hc2 : ML.EncryptedData (ML.Encrypt [9; 8; 7] ML.GenerateKey)
                !! 0%nat = Some 115) by reflexivity.
  split; [exact H1|]. split; [exact H9|].
  split; [exact Hc1|]. split; [exact Hc2|].
  apply (X10_same_key_xor [1; 2; 3] [9; 8; 7] ML.GenerateKey 0 1 9 123 115
           H1 H9 eq_refl eq_refl Hc1 Hc2).
Defined.

(** X11: [Decrypt] always returns [OriginalSize] bytes: the first
    [min(EncryptedData.size(), OriginalSize)] are the XOR-ed encrypted bytes,
    the others are zero whatever the key; encrypted bytes beyond
    [OriginalSize] are ignored. *)
Theorem X11_Decrypt_shape (E : ML.EncryptedModelData) (K : ML.EncryptionKey) :
  ML.Decrypt E K
  = map (ML.xor_byte K (ML.EncryptedData E))
        (seq 0 (Nat.min (length (ML.EncryptedData E))
                  (Z.to_nat (ML.OriginalSize E))))
    ++ replicate (Z.to_nat (ML.OriginalSize E)
                  - length (ML.EncryptedData E)) 0.
Proof.
  unfold ML.Decrypt. rewrite length_replicate.
  rewrite xor_loop_prefix by (rewrite length_replicate; lia).
  rewrite drop_replicate. do 2 f_equal. lia.
Qed.

(** X12: encrypting what [Decrypt] returned gives the encrypted bytes back,
    for a container of bytes whose [OriginalSize] is the number of its
    encrypted bytes. *)
Theorem X12_Encrypt_Decrypt (E : ML.EncryptedModelData)
    (K : ML.EncryptionKey) :
  is_bytes (ML.EncryptedData E) ->
  ML.OriginalSize E = Z.of_nat (length (ML.EncryptedData E)) ->
  ML.EncryptedData (ML.Encrypt (ML.Decrypt E K) K) = ML.EncryptedData E.
Proof.
  intros Hb Hsz.
  assert (Hlen : length (ML.Decrypt E K) = length (ML.EncryptedData E))
    by (rewrite Decrypt_length, Hsz; apply Nat2Z.id).
  apply list_eq. intros i.
  destruct (decide (i < length (ML.EncryptedData E))%nat) as [Hi|Hi].
  - rewrite Encrypt_data_lookup by lia.
    destruct (lookup_lt_is_Some_2 _ i Hi) as [e He]. rewrite He. f_equal.
    unfold ML.xor_byte at 1.
    rewrite (at_index_lookup _ _ _
               (Decrypt_lookup E K i Hi ltac:(rewrite Hsz; lia))).
    unfold ML.xor_byte. rewrite (at_index_lookup _ _ _ He).
    apply xor_twice. by eapply Forall_lookup_1.
  - rewrite (lookup_ge_None_2 (ML.EncryptedData E)) by lia.
    apply lookup_ge_None_2. rewrite Encrypt_data_length. lia.
Qed.

Lemma X12_Encrypt_Decrypt_witness :
  is_bytes (ML.EncryptedData ML.sample_model) /\
  ML.OriginalSize ML.sample_model
  = Z.of_nat (length (ML.EncryptedData ML.sample_model)) /\
  ML.EncryptedData
    (ML.Encrypt (ML.Decrypt ML.sample_model ML.GenerateKey) ML.GenerateKey)
  = ML.EncryptedData ML.sample_model.
Proof.
  assert (Hb : is_bytes (ML.EncryptedData ML.sample_model)).
  { unfold ML.sample_model. rewrite Encrypt_5.
    repeat constructor; unfold is_uint8; lia. }
  assert (Hsz : ML.OriginalSize ML.sample_model
                = Z.of_nat (length (ML.EncryptedData ML.sample_model)))
    by (vm_compute; reflexivity).
  split; [exact Hb|]. split; [exact Hsz|].
  apply (X12_Encrypt_Decrypt ML.sample_model ML.GenerateKey Hb Hsz).
Defined.

(** Cell [j] of the vector [Decrypt] returns. *)
Lemma Decrypt_lookup_cases (E : ML.EncryptedModelData)
    (K : ML.EncryptionKey) (j : nat) :
  ML.Decrypt E K !! j
  = if decide (j < Z.to_nat (ML.OriginalSize E))%nat
    then Some (if decide (j < length (ML.EncryptedData E))%nat
               then ML.xor_byte K (ML.EncryptedData E) j else 0)
    else None.
Proof.
  destruct (decide (j < Z.to_nat (ML.OriginalSize E))%nat) as [Ho|Ho].
  - destruct (decide (j < length (ML.EncryptedData E))%nat) as [Hl|Hl].
    + by apply Decrypt_lookup.
    + unfold ML.Decrypt. rewrite length_replicate.
      rewrite xor_loop_prefix by (rewrite length_replicate; lia).
      rewrite lookup_app_r by (rewrite length_map, length_seq; lia).
      rewrite drop_replicate, length_map, length_seq.
      apply lookup_replicate_2. lia.
  - apply lookup_ge_None_2. rewrite Decrypt_length. lia.
Qed.

(** X13: the encrypted bytes are malleable: XOR-ing a mask into encrypted
    byte [i] XORs the same mask into decrypted byte [i] and changes no other
    decrypted byte. *)
Theorem X13_malleable (E : ML.EncryptedModelData) (K : ML.EncryptionKey)
    (i : nat) (e p m : Z) :
  is_uint8 m ->
  ML.EncryptedData E !! i = Some e ->
  ML.Decrypt E K !! i = Some p ->
  ML.Decrypt
    (Cipher.with_data E (<[i := Z.lxor e m]> (ML.EncryptedData E))) K !! i
  = Some (Z.lxor p m) /\
  forall j : nat, j <> i ->
    ML.Decrypt
      (Cipher.with_data E (<[i := Z.lxor e m]> (ML.EncryptedData E))) K !! j
    = ML.Decrypt E K !! j.
Proof.
  intros Hm He Hp.
  assert (Hi : (i < length (ML.EncryptedData E))%nat)
    by (by eapply lookup_lt_Some).
  assert (Hi' : (i < Z.to_nat (ML.OriginalSize E))%nat)
    by (rewrite <- (Decrypt_length K); by eapply lookup_lt_Some).
  split.
  - rewrite Decrypt_lookup in Hp by done. injection Hp as <-.
    rewrite Decrypt_lookup
      by (cbn [Cipher.with_data ML.EncryptedData ML.OriginalSize];
          rewrite ?length_insert; done).
    f_equal. cbn [Cipher.with_data ML.EncryptedData].
    rewrite !xor_byte_keystream, (at_index_lookup _ _ _ He).
    unfold ML.at_index at 1.
    rewrite list_lookup_insert, decide_True by done.
    cbn [default from_option]. unfold id.
    bitwise n Hn. destruct (Z.ltb_spec n 8); cbn [andb].
    + by split_bits n.
    + rewrite (uint8_testbit_high m) by done. done.
  - intros j Hj. rewrite !Decrypt_lookup_cases.
    cbn [Cipher.with_data ML.EncryptedData ML.OriginalSize].
    rewrite length_insert. unfold ML.xor_byte, ML.at_index.
    by rewrite list_lookup_insert_ne.
Qed.

Lemma X13_malleable_witness :
  is_uint8 255 /\
  ML.Decrypt
    (Cipher.with_data ML.sample_model
       (<[1%nat := Z.lxor 108 255]> (ML.EncryptedData ML.sample_model)))
    ML.GenerateKey !! 1%nat
  = Some (Z.lxor 2 255).
Proof.
  assert (Hm : is_uint8 255) by (unfold is_uint8; lia).
  split; [exact Hm|].
  apply (X13_malleable ML.sample_model ML.GenerateKey 1 108 2 255 Hm);
    reflexivity.
Defined.

(** ** The runtime *)

(** X14: [LoadModel] is all or nothing.  A container that does not verify
    leaves the runtime exactly as it was; one that verifies replaces model,
    key and decrypted bytes and sets the loaded flag, whatever the runtime
    held before.  The state of the second [return false], with the members
    replaced and the flag untouched, never arises. *)
Theorem X14_LoadModel_all_or_nothing (this : ML.EncryptedModelRuntime)
    (Model : ML.EncryptedModelData) (K : ML.EncryptionKey) :
  ML.LoadModel this Model K
  = if ML.VerifyModel Model
    then (true, Cipher.loaded_runtime Model K (ML.Decrypt Model K))
    else (false, this).
Proof.
  destruct (ML.VerifyModel Model) eqn:HV.
  - by apply LoadModel_verified.
  - unfold ML.LoadModel. by rewrite HV.
Qed.

(** X15: [Unload] keeps the encrypted model and the key: loading them again
    into the unloaded runtime succeeds and restores the state the runtime
    had after the first load. *)
Theorem X15_Unload_reload (this : ML.EncryptedModelRuntime)
    (Model : ML.EncryptedModelData) (K : ML.EncryptionKey) :
  ML.VerifyModel Model = true ->
  ML.IsLoaded (ML.Unload (snd (ML.LoadModel this Model K))) = false /\
  ML.DecryptedModel (ML.Unload (snd (ML.LoadModel this Model K))) = [] /\
  ML.LoadModel (ML.Unload (snd (ML.LoadModel this Model K)))
    (ML.EncryptedModel (ML.Unload (snd (ML.LoadModel this Model K))))
    (ML.RuntimeKey (ML.Unload (snd (ML.LoadModel this Model K))))
  = (true, snd (ML.LoadModel this Model K)).
Proof.
  intros HV. rewrite (LoadModel_verified this) by done.
  cbn [snd ML.Unload Cipher.loaded_runtime ML.EncryptedModel ML.RuntimeKey
       ML.DecryptedModel ML.IsLoaded ML.bIsLoaded].
  split; [done|]. split; [done|].
  by rewrite LoadModel_verified.
Qed.

Lemma X15_Unload_reload_witness :
  ML.VerifyModel ML.sample_model = true /\
  ML.LoadModel
    (ML.Unload
       (snd (ML.LoadModel ML.EncryptedModelRuntime_new ML.sample_model
               ML.GenerateKey)))
    (ML.EncryptedModel
       (ML.Unload
          (snd (ML.LoadModel ML.EncryptedModelRuntime_new ML.sample_model
                  ML.GenerateKey))))
    (ML.RuntimeKey
       (ML.Unload
          (snd (ML.LoadModel ML.EncryptedModelRuntime_new ML.sample_model
                  ML.GenerateKey))))
  = (true,
     snd (ML.LoadModel ML.EncryptedModelRuntime_new ML.sample_model
            ML.GenerateKey)).
Proof.
  assert (HV : ML.VerifyModel ML.sample_model = true) by reflexivity.
  split; [exact HV|].
  apply (X15_Unload_reload ML.EncryptedModelRuntime_new ML.sample_model
           ML.GenerateKey HV).
Defined.

(** ** Security::CalculateChecksum *)

Lemma uint32_wrap_testbit (z n : Z) :
  0 <= n ->
  Z.testbit (uint32_wrap z) n = (n <? 32) && Z.testbit z n.
Proof.
  intros Hn. unfold uint32_wrap. destruct (Z.ltb_spec n 32).
  - by rewrite Z.mod_pow2_bits_low.
  - by rewrite Z.mod_pow2_bits_high by lia.
Qed.

Lemma checksum_step_testbit (c b n : Z) :
  0 <= n ->
  Z.testbit (Security.checksum_step c b) n
  = (n <? 32) && xorb (Z.testbit c (n - 1)) (Z.testbit b n).
Proof.
  intros Hn. unfold Security.checksum_step.
  rewrite uint32_wrap_testbit, Z.lxor_spec, uint32_wrap_testbit,
    Z.shiftl_spec by done.
  by destruct (n <? 32).
Qed.

Lemma checksum_snoc (c : Z) (l : list Z) (b : Z) :
  foldl Security.checksum_step c (l ++ [b])
  = Security.checksum_step (foldl Security.checksum_step c l) b.
Proof. by rewrite foldl_app. Qed.

(** The running checksum after the bytes [l] is the start value shifted by
    their number, XOR-ed with the checksum of [l] alone. *)
Lemma checksum_fold_testbit (l : list Z) (b c n : Z) :
  0 <= n ->
  Z.testbit (foldl Security.checksum_step c (l ++ [b])) n
  = (n <? 32)
    && xorb (Z.testbit c (n - Z.of_nat (length (l ++ [b]))))
         (Z.testbit (foldl Security.checksum_step 0 (l ++ [b])) n).
Proof.
  revert b n. induction l as [|a l IH] using rev_ind; intros b n Hn.
  - simpl. rewrite !checksum_step_testbit by done.
    rewrite Z.testbit_0_l. simpl. by destruct (n <? 32).
  - rewrite (checksum_snoc c), (checksum_snoc 0).
    rewrite !checksum_step_testbit by done.
    destruct (Z.ltb_spec n 32); [|done]. cbn [andb].
    destruct (decide (n = 0)) as [->|Hn0].
    + assert (Hneg : forall z, Z.testbit z (0 - 1) = false)
        by (intros z; apply Z.testbit_neg_r; lia).
      rewrite !Hneg.
      rewrite (Z.testbit_neg_r c)
        by (rewrite length_app; simpl length; lia).
      done.
    + rewrite (IH a (n - 1)) by lia.
      rewrite (proj2 (Z.ltb_lt (n - 1) 32)) by lia. cbn [andb].
      rewrite (length_app (l ++ [a]) [b]). simpl length.
      replace (n - Z.of_nat (length (l ++ [a]) + 1))
        with (n - 1 - Z.of_nat (length (l ++ [a]))) by lia.
      by destruct (Z.testbit c _), (Z.testbit (foldl _ 0 _) _),
        (Z.testbit b n).
Qed.

(** X16: the checksum only sees the last 32 bytes: whatever precedes them
    does not change it. *)
Theorem X16_checksum_last_32 (pre l : list Z) :
  (32 <= length l)%nat ->
  Security.CalculateChecksum (pre ++ l) = Security.CalculateChecksum l.
Proof.
  intros Hlen. unfold Security.CalculateChecksum. rewrite foldl_app.
  destruct l as [|b l _] using rev_ind; [simpl in Hlen; lia|].
  apply Z.bits_inj'. intros n Hn. rewrite checksum_fold_testbit by done.
  rewrite (checksum_fold_testbit l b 0) by done.
  rewrite Z.testbit_0_l.
  destruct (Z.ltb_spec n 32); [|done].
  rewrite length_app in *. simpl length in *.
  rewrite Z.testbit_neg_r by lia. done.
Qed.

Lemma X16_checksum_last_32_witness :
  (32 <= length (replicate 32 7))%nat /\
  Security.CalculateChecksum ([1; 2; 3] ++ replicate 32 7)
  = Security.CalculateChecksum (replicate 32 7).
Proof.
  assert (H : (32 <= length (replicate 32 7))%nat) by (simpl; lia).
  split; [exact H|].
  apply (X16_checksum_last_32 [1; 2; 3] (replicate 32 7) H).
Defined.

(** X17: leading zero bytes do not change the checksum. *)
Theorem X17_checksum_leading_zeros (k : nat) (l : list Z) :
  Security.CalculateChecksum (replicate k 0 ++ l)
  = Security.CalculateChecksum l.
Proof.
  unfold Security.CalculateChecksum. rewrite foldl_app. f_equal.
  induction k as [|k IH]; [done|].
  rewrite replicate_S_end, foldl_app, IH. reflexivity.
Qed.

(** ** Tensors *)

Lemma GetTotalSize_fold (shape : list Z) (a : Z) :
  foldl (fun Size Dim => uint32_wrap (Size * Dim)) (uint32_wrap a) shape
  = uint32_wrap (a * MLInference.shape_product shape).
Proof.
  revert a. induction shape as [|d shape IH]; intros a.
  - simpl. by rewrite Z.mul_1_r.
  - cbn [foldl].
    replace (uint32_wrap (uint32_wrap a * d)) with (uint32_wrap (a * d))
      by (unfold uint32_wrap; by rewrite Z.mul_mod_idemp_l).
    rewrite IH. unfold MLInference.shape_product. cbn [foldr].
    f_equal. lia.
Qed.

(** X18: [GetTotalSize] is the product of the dimensions reduced modulo
    [2^32]: the intermediate wrap-arounds of [Size *= Dim] lose nothing
    more than the final one. *)
Theorem X18_GetTotalSize_product (T : MLInference.TensorData) :
  MLInference.GetTotalSize T
  = uint32_wrap (MLInference.shape_product (MLInference.Shape T)).
Proof.
  unfold MLInference.GetTotalSize.
  change 1 with (uint32_wrap 1) at 1.
  rewrite GetTotalSize_fold. f_equal. lia.
Qed.

(** ** Inference *)

Lemma RunInference_batch_from (half : Z -> Z)
    (this : ML.EncryptedModelRuntime)
    (Inputs Outputs : list MLInference.TensorData) :
  foldl (fun Outputs Input =>
           Outputs ++ [MLInference.RunInference half this Input])
    Outputs Inputs
  = Outputs ++ map (MLInference.RunInference half this) Inputs.
Proof.
  revert Outputs. induction Inputs as [|I Inputs IH]; intros Outputs.
  - by rewrite app_nil_r.
  - cbn [foldl map]. rewrite IH, <- app_assoc. done.
Qed.

(** X19: the batch overload returns one output per input, in the order of
    the inputs, each the result of the single-input overload; on a runtime
    that is not loaded every output is the empty default tensor. *)
Theorem X19_RunInference_batch (half : Z -> Z)
    (this : ML.EncryptedModelRuntime)
    (Inputs : list MLInference.TensorData) :
  MLInference.RunInference_batch half this Inputs
  = map (MLInference.RunInference half this) Inputs /\
  length (MLInference.RunInference_batch half this Inputs) = length Inputs /\
  MLInference.RunInference_batch half (ML.Unload this) Inputs
  = replicate (length Inputs) MLInference.TensorData_new.
Proof.
  unfold MLInference.RunInference_batch.
  rewrite !RunInference_batch_from. cbn [app].
  split; [done|]. split; [by rewrite length_map|].
  induction Inputs as [|I Inputs IH]; [done|].
  cbn [map length replicate]. by rewrite IH.
Qed.

(** X20: on a runtime that has loaded a verified model, inference keeps the
    shape and the number of elements of its input, hence its total size, and
    names the output [output]. *)
Theorem X20_RunInference_loaded (half : Z -> Z)
    (this : ML.EncryptedModelRuntime) (Model : ML.EncryptedModelData)
    (K : ML.EncryptionKey) (Input : MLInference.TensorData) :
  ML.VerifyModel Model = true ->
  MLInference.Shape
    (MLInference.RunInference half (snd (ML.LoadModel this Model K)) Input)
  = MLInference.Shape Input /\
  length
    (MLInference.Data
       (MLInference.RunInference half (snd (ML.LoadModel this Model K))
          Input))
  = length (MLInference.Data Input) /\
  MLInference.GetTotalSize
    (MLInference.RunInference half (snd (ML.LoadModel this Model K)) Input)
  = MLInference.GetTotalSize Input /\
  MLInference.Name
    (MLInference.RunInference half (snd (ML.LoadModel this Model K)) Input)
  = "output"%string.
Proof.
  intros HV. rewrite (LoadModel_verified this) by done.
  unfold MLInference.RunInference, MLInference.GetTotalSize.
  cbn [snd Cipher.loaded_runtime ML.bIsLoaded negb MLInference.Shape
       MLInference.Data MLInference.Name].
  by rewrite length_map.
Qed.

Lemma X20_RunInference_loaded_witness :
  ML.VerifyModel ML.sample_model = true /\
  MLInference.Shape
    (MLInference.RunInference (fun v => v / 2)
       (snd (ML.LoadModel ML.EncryptedModelRuntime_new ML.sample_model
               ML.GenerateKey))
       {| MLInference.Data := [2; 4; 6; 8]; MLInference.Shape := [2; 2];
          MLInference.Name := "input" |})
  = [2; 2].
Proof.
  assert (HV : ML.VerifyModel ML.sample_model = true) by reflexivity.
  split; [exact HV|].
  apply (X20_RunInference_loaded (fun v => v / 2)
           ML.EncryptedModelRuntime_new ML.sample_model ML.GenerateKey
           {| MLInference.Data := [2; 4; 6; 8]; MLInference.Shape := [2; 2];
              MLInference.Name := "input" |} HV).
Defined.
